(** * progress: sampling a byte counter and estimating completion time

    A shallow embedding of [progress.go]: the [Progress] snapshot with its
    accessors, and the sampling loop that [NewTicker] starts.

    - [float64] values are the IEEE 754 binary64 numbers of the Standard
      Library's [SpecFloat] (precision 53, [emax] 1024); Go's [/], [==], [>]
      and [>=] on [float64] are [SFdiv], [SFeqb], [SFltb] and [SFleb].
    - [int64] values are integers of [Z] between [min_int64] and [max_int64].
    - A [time.Time] is the number of nanoseconds since the zero instant, a
      [time.Duration] an [int64] count of nanoseconds.
    - The goroutine of [NewTicker] is a loop over the outcomes of its
      [select]: each iteration either observes [ctx.Done()] or the timer, and
      in the second case reads the counter and the clock. *)

From Stdlib Require Import ZArith List Bool Lia.
From Stdlib Require Import Floats.SpecFloat.
Import ListNotations.

Local Open Scope Z_scope.

(** ** Machine integers *)

Definition min_int64 : Z := - 2 ^ 63.
Definition max_int64 : Z := 2 ^ 63 - 1.

Definition in_int64 (z : Z) : bool := (min_int64 <=? z) && (z <=? max_int64).

(** ** binary64 *)

Definition float64 : Set := spec_float.

Module F64.

Definition prec : Z := 53.
Definition emax : Z := 1024.

Definition zero : float64 := S754_zero false.

Definition div (x y : float64) : float64 := SFdiv prec emax x y.
Definition eqb (x y : float64) : bool := SFeqb x y.
Definition ltb (x y : float64) : bool := SFltb x y.
Definition leb (x y : float64) : bool := SFleb x y.

(** [float64(z)] for an integer [z]: the nearest binary64, ties to even. *)
Definition of_int (z : Z) : float64 := binary_normalize prec emax z 0 false.

(** The literals [100] and [100.0]. *)
Definition hundred : float64 := of_int 100.

(** The integer part of a float, rounded toward zero; infinities and NaN
    have none. *)
Definition trunc (x : float64) : option Z :=
  match x with
  | S754_zero _ => Some 0
  | S754_finite s m e =>
      Some (cond_Zopp s
              (match e with
               | Z0 => Zpos m
               | Zpos _ => Zpos m * 2 ^ e
               | Zneg _ => Zpos m / 2 ^ (- e)
               end))
  | S754_infinity _ | S754_nan => None
  end.

End F64.

(** ** time.Time and time.Duration *)

Module Time.

Definition Time : Set := Z.
Definition Duration : Set := Z.

(** The zero value of [time.Time]. *)
Definition zero : Time := 0.

Definition IsZero (t : Time) : bool := t =? 0.

(** [t.Sub(u)]: the difference, or the largest (smallest) [Duration] when
    it does not fit. *)
Definition Sub (t u : Time) : Duration :=
  let d := t - u in
  if d <? min_int64 then min_int64
  else if max_int64 <? d then max_int64
  else d.

Definition Add (t : Time) (d : Duration) : Time := t + d.

End Time.

(** ** Progress *)

Record Progress : Set := {
  n : float64;
  size : float64;
  estimated : Time.Time
}.

(** What one iteration of the goroutine's [select] observes: the context is
    done, or the timer fired, and then [counter.N()] returns [count] and
    [time.Now()] returns [now]. *)
Inductive event : Set :=
| CtxDone
| TimerFired (count : Z) (now : Time.Time).

(** Why the goroutine returned (and closed the channel). *)
Inductive exit : Set :=
| Completed
| Cancelled.

Section Platform.

(** Converting a [float64] whose integer part is not an [int64] (also an
    infinity or a NaN) yields a value that Go leaves to the implementation:
    [indefinite] is that value. *)
Variable indefinite : float64 -> Z.

(** [int64(x)] and [time.Duration(x)] for a [float64] [x]. *)
Definition to_int64 (x : float64) : Z :=
  match F64.trunc x with
  | Some z => if in_int64 z then z else indefinite x
  | None => indefinite x
  end.

Definition N (p : Progress) : Z := to_int64 (n p).

Definition Size (p : Progress) : Z := to_int64 (size p).

Definition Started (p : Progress) : bool := F64.ltb F64.zero (n p).

Definition Complete (p : Progress) : bool := F64.leb (size p) (n p).

Definition Percent (p : Progress) : float64 :=
  if F64.eqb (n p) F64.zero then F64.zero
  else if F64.eqb (n p) (size p) then F64.hundred
  else F64.div F64.hundred (F64.div (size p) (n p)).

(** [Remaining] reads the clock: [now] is what [time.Now()] returns. *)
Definition Remaining (p : Progress) (now : Time.Time) : Time.Duration :=
  Time.Sub (estimated p) now.

Definition Estimated (p : Progress) : Time.Time := estimated p.

(** *** The body of the timer case

    [ratio] and [estimate] are the [else] branch; [sample] is the body up to
    the send, and returns the snapshot with the new value of [started]. *)
Definition ratio (p : Progress) : float64 := F64.div (n p) (size p).

Definition estimate (started : Time.Time) (p : Progress)
           (now : Time.Time) : Time.Time :=
  let past := F64.of_int (Time.Sub now started) in
  let future := to_int64 (F64.div past (ratio p)) in
  Time.Add started future.

Definition sample (sz : Z) (started : Time.Time) (count : Z)
           (now : Time.Time) : Progress * Time.Time :=
  let progress :=
    {| n := F64.of_int count; size := F64.of_int sz;
       estimated := Time.zero |} in
  if Time.IsZero started then
    (progress, if Started progress then now else started)
  else
    ({| n := n progress; size := size progress;
        estimated := estimate started progress now |}, started).

(** *** The loop

    The result is the list of the snapshots sent on the channel, in order,
    and how the goroutine ended: [None] when the events are exhausted and
    it is still waiting in the [select], the channel open. Every send is
    received. *)
Fixpoint loop (sz : Z) (started : Time.Time) (evs : list event)
  : list Progress * option exit :=
  match evs with
  | [] => ([], None)
  | CtxDone :: _ => ([], Some Cancelled)
  | TimerFired count now :: evs' =>
      let (progress, started') := sample sz started count now in
      if Complete progress then ([progress], Some Completed)
      else
        let (rest, r) := loop sz started' evs' in
        (progress :: rest, r)
  end.

Definition NewTicker (sz : Z) (evs : list event)
  : list Progress * option exit :=
  loop sz Time.zero evs.

(** The value of the variable [started] when iteration [i] of the loop
    begins, [i] counted from 0, the loop entered with [started]. *)
Fixpoint started_before (sz : Z) (started : Time.Time) (evs : list event)
         (i : nat) : Time.Time :=
  match i, evs with
  | S i', TimerFired count now :: evs' =>
      started_before sz (snd (sample sz started count now)) evs' i'
  | _, _ => started
  end.

End Platform.

(** The counter never decreases from one reading to a later one. *)
Definition monotone (evs : list event) : Prop :=
  forall i j ci ti cj tj,
    (i <= j)%nat ->
    nth_error evs i = Some (TimerFired ci ti) ->
    nth_error evs j = Some (TimerFired cj tj) ->
    ci <= cj.

(** Iteration [j] is the first to read a positive count, at time [tj]. *)
Definition first_activity (evs : list event) (j : nat) (tj : Time.Time)
  : Prop :=
  (exists c, nth_error evs j = Some (TimerFired c tj) /\ 0 < c)
  /\ forall k c t,
      (k < j)%nat -> nth_error evs k = Some (TimerFired c t) -> c <= 0.

(** On amd64 the conversion instruction yields the smallest [int64]. *)
Definition amd64 : float64 -> Z := fun _ => min_int64.

(** The mantissa and the exponent of the float of a positive integer of [d]
    bits, [d <= 53]: the integer shifted left to 53 bits. *)
Definition small_mantissa (p : positive) : positive :=
  Z.to_pos (Zpos p * 2 ^ (53 - Zpos (digits2_pos p))).

Definition small_exponent (p : positive) : Z := Zpos (digits2_pos p) - 53.

(** ** Rounding to 53 bits, on integers

    What the conversion of an integer to [float64] computes, written on the
    integers: used to state the lemmas about [F64.of_int]. *)

(** Whether rounding [m / 2 ^ k] to nearest, ties to even, goes up. *)
Definition round_up (m k : Z) : bool :=
  Z.odd (m / 2 ^ (k - 1))
  && (negb (m mod 2 ^ (k - 1) =? 0) || Z.odd (m / 2 ^ k)).

Definition rounded (m k : Z) : Z :=
  m / 2 ^ k + (if round_up m k then 1 else 0).

(** The integer nearest to [p] among those with 53 significant bits, ties to
    even. *)
Definition nearest (p : positive) : Z :=
  let d := Zpos (digits2_pos p) in
  if d <=? 53 then Zpos p
  else rounded (Zpos p) (d - 53) * 2 ^ (d - 53).

Definition nearest_int (c : Z) : Z :=
  match c with
  | Z0 => 0
  | Zpos p => nearest p
  | Zneg p => - nearest p
  end.

(** ** Sample runs *)

(** Three ticks toward a size of 100: idle, then 10, then 20. *)
Definition trace_start : list event :=
  [TimerFired 0 1000; TimerFired 10 2000; TimerFired 20 3000].

(** A counter that reaches the size on the second tick. *)
Definition trace_done : list event :=
  [TimerFired 50 1000; TimerFired 100 2000; TimerFired 100 3000].

(** The snapshot of the third tick of [trace_start]: the first activity was
    at 2000 with 10 of 100, and 20 of 100 at 3000 gives 2000 + 1000 / 0.2. *)
Definition third_snapshot : Progress :=
  {| n := F64.of_int 20; size := F64.of_int 100; estimated := 7000 |}.

(** A counter that falls back to zero after its first activity. *)
Definition trace_reset : list event :=
  [TimerFired 10 1000; TimerFired 0 2000].

(** A slow transfer toward a size of [10 ^ 10]: the counter reads 1, and 1
    again one second later. *)
Definition trace_slow : list event :=
  [TimerFired 1 1000000000; TimerFired 1 2000000000].

(** * Facts about binary64 arithmetic *)

(** ** Digits and shifts *)

Lemma iter_pos_eq (A : Type) (f : A -> A) (p : positive) (x : A) :
  iter_pos f p x = Pos.iter f x p.
Proof.
  revert x; induction p as [p IH | p IH | ]; intro x; simpl.
  - rewrite !IH, <- !Pos.iter_swap. reflexivity.
  - rewrite !IH. reflexivity.
  - reflexivity.
Qed.

Lemma digits2_pos_size (p : positive) : digits2_pos p = Pos.size p.
Proof. induction p; simpl; congruence. Qed.

Lemma digits2_bounds (p : positive) :
  2 ^ (Zpos (digits2_pos p) - 1) <= Zpos p < 2 ^ Zpos (digits2_pos p).
Proof.
  rewrite digits2_pos_size.
  pose proof (Pos.size_gt p) as Hgt.
  pose proof (Pos.size_le p) as Hle.
  apply Pos2Z.pos_lt_pos in Hgt. apply Pos2Z.pos_le_pos in Hle.
  rewrite Pos2Z.inj_pow in Hgt, Hle.
  change (Zpos p~0) with (2 * Zpos p) in Hle.
  split; [ | exact Hgt ].
  replace (Zpos (Pos.size p)) with (Z.succ (Zpos (Pos.size p) - 1)) in Hle
    by lia.
  rewrite Z.pow_succ_r in Hle by lia.
  lia.
Qed.

Lemma digits2_unique (p : positive) (d : Z) :
  2 ^ (d - 1) <= Zpos p < 2 ^ d -> Zpos (digits2_pos p) = d.
Proof.
  intros [Hlo Hhi].
  destruct (digits2_bounds p) as [Hlo' Hhi'].
  set (k := Zpos (digits2_pos p)) in *.
  assert (Hk : 0 < k) by (unfold k; lia).
  assert (Hd : 0 < d).
  { destruct (Z_lt_le_dec 0 d) as [ | Hneg ]; [ assumption | ].
    destruct (Z.eq_dec d 0) as [ -> | ]; [ simpl in Hhi; lia | ].
    rewrite (Z.pow_neg_r 2 d) in Hhi by lia. lia. }
  destruct (Z.lt_trichotomy k d) as [Hlt | [Heq | Hgt]]; [ | exact Heq | ].
  - assert (2 ^ k <= 2 ^ (d - 1)) by (apply Z.pow_le_mono_r; lia). lia.
  - assert (2 ^ d <= 2 ^ (k - 1)) by (apply Z.pow_le_mono_r; lia). lia.
Qed.

Lemma digits2_le (p : positive) (k : Z) :
  0 <= k -> Zpos p < 2 ^ k -> Zpos (digits2_pos p) <= k.
Proof.
  intros Hk Hp. destruct (digits2_bounds p) as [Hlo _].
  destruct (Z_le_gt_dec (Zpos (digits2_pos p)) k) as [ | Hgt ];
    [ assumption | ].
  assert (2 ^ k <= 2 ^ (Zpos (digits2_pos p) - 1))
    by (apply Z.pow_le_mono_r; lia).
  lia.
Qed.

Lemma digits2_le_53 (p : positive) :
  Zpos p < 2 ^ 53 -> Zpos (digits2_pos p) <= 53.
Proof. apply digits2_le. lia. Qed.

Lemma digits2_mono (a b : positive) :
  Zpos a <= Zpos b -> Zpos (digits2_pos a) <= Zpos (digits2_pos b).
Proof.
  intros Hab.
  destruct (digits2_bounds a) as [Hlo _].
  destruct (digits2_bounds b) as [_ Hhi].
  assert (Hpow : 2 ^ (Zpos (digits2_pos a) - 1) < 2 ^ Zpos (digits2_pos b))
    by lia.
  apply Z.pow_lt_mono_r_iff in Hpow; lia.
Qed.

Lemma digits2_shift (p d : positive) :
  Zpos (digits2_pos (Pos.iter xO p d)) = Zpos (digits2_pos p) + Zpos d.
Proof.
  apply (Pos.iter_ind positive xO p
           (fun k q => Zpos (digits2_pos q) = Zpos (digits2_pos p) + Zpos k)).
  - simpl. lia.
  - intros k q IH. simpl. lia.
Qed.

Lemma shift_value (p d : positive) :
  Zpos (Pos.iter xO p d) = Zpos p * 2 ^ Zpos d.
Proof.
  apply (Pos.iter_ind positive xO p
           (fun k q => Zpos q = Zpos p * 2 ^ Zpos k)).
  - rewrite Pos2Z.inj_xO. change (2 ^ 1) with 2. lia.
  - intros k q IH. rewrite Pos2Z.inj_xO, IH, Pos2Z.inj_succ.
    rewrite Z.pow_succ_r by lia. lia.
Qed.

(** ** Shifting right *)

Lemma shr_1_m (mrs : shr_record) :
  0 <= shr_m mrs -> shr_m (shr_1 mrs) = shr_m mrs / 2.
Proof.
  destruct mrs as [m r s]; simpl; intros Hm.
  destruct m as [ | [p | p | ] | p ]; simpl; try reflexivity; try lia.
  - rewrite Pos2Z.inj_xI.
    apply (Z.div_unique _ 2 _ 1); lia.
  - rewrite Pos2Z.inj_xO.
    apply (Z.div_unique _ 2 _ 0); lia.
Qed.

Lemma shr_1_spec (mrs : shr_record) :
  0 <= shr_m mrs ->
  shr_1 mrs = {| shr_m := shr_m mrs / 2; shr_r := Z.odd (shr_m mrs);
                 shr_s := shr_r mrs || shr_s mrs |}.
Proof.
  intros Hm. pose proof (shr_1_m mrs Hm) as Hdiv.
  destruct mrs as [m r s]. cbn [shr_m shr_r shr_s] in *.
  rewrite <- Hdiv.
  destruct m as [ | [p | p | ] | p ]; try reflexivity; lia.
Qed.

Lemma shr_iter_m (k : positive) (mrs : shr_record) :
  0 <= shr_m mrs ->
  shr_m (iter_pos shr_1 k mrs) = shr_m mrs / 2 ^ Zpos k.
Proof.
  intros Hm. rewrite iter_pos_eq.
  apply (Pos.iter_ind shr_record shr_1 mrs
           (fun k a => shr_m a = shr_m mrs / 2 ^ Zpos k)).
  - change (2 ^ 1) with 2. apply shr_1_m; assumption.
  - intros j a IH.
    rewrite shr_1_m, IH.
    + rewrite Pos2Z.inj_succ, Z.pow_succ_r by lia.
      rewrite Z.div_div by lia. f_equal. lia.
    + rewrite IH. apply Z.div_pos; lia.
Qed.

Lemma mod_pow2_succ (m k : Z) :
  0 < k ->
  m mod 2 ^ k
  = m mod 2 ^ (k - 1)
    + 2 ^ (k - 1) * (if Z.odd (m / 2 ^ (k - 1)) then 1 else 0).
Proof.
  intros Hk.
  assert (Hpow : 2 ^ k = 2 ^ (k - 1) * 2).
  { replace k with (Z.succ (k - 1)) at 1 by lia.
    rewrite Z.pow_succ_r by lia. lia. }
  rewrite Hpow.
  rewrite Z.rem_mul_r by (try apply Z.pow_nonzero; lia).
  rewrite Zmod_odd. reflexivity.
Qed.

Lemma shr_iter_exact (k : positive) (m : Z) :
  0 <= m ->
  iter_pos shr_1 k {| shr_m := m; shr_r := false; shr_s := false |}
  = {| shr_m := m / 2 ^ Zpos k;
       shr_r := Z.odd (m / 2 ^ (Zpos k - 1));
       shr_s := negb (m mod 2 ^ (Zpos k - 1) =? 0) |}.
Proof.
  intros Hm. rewrite iter_pos_eq.
  apply (Pos.iter_ind shr_record shr_1
           {| shr_m := m; shr_r := false; shr_s := false |}
           (fun k a =>
              a = {| shr_m := m / 2 ^ Zpos k;
                     shr_r := Z.odd (m / 2 ^ (Zpos k - 1));
                     shr_s := negb (m mod 2 ^ (Zpos k - 1) =? 0) |})).
  - rewrite shr_1_spec by (cbn [shr_m]; lia). cbn [shr_m shr_r shr_s].
    change (2 ^ (1 - 1)) with 1. change (2 ^ 1) with 2.
    rewrite Z.div_1_r, Z.mod_1_r. reflexivity.
  - intros j a ->.
    assert (Hdiv : 0 <= m / 2 ^ Zpos j) by (apply Z.div_pos; lia).
    rewrite shr_1_spec by (cbn [shr_m]; exact Hdiv).
    cbn [shr_m shr_r shr_s].
    rewrite Pos2Z.inj_succ.
    replace (Z.succ (Zpos j) - 1) with (Zpos j) by lia.
    f_equal.
    + rewrite Z.pow_succ_r by lia. rewrite Z.div_div by lia.
      f_equal. lia.
    + rewrite (mod_pow2_succ m (Zpos j)) by lia.
      assert (Ht : 0 <= m mod 2 ^ (Zpos j - 1))
        by (apply Z.mod_pos_bound; apply Z.pow_pos_nonneg; lia).
      assert (Hp : 0 < 2 ^ (Zpos j - 1)) by (apply Z.pow_pos_nonneg; lia).
      destruct (Z.odd (m / 2 ^ (Zpos j - 1))); cbn [orb].
      * symmetry. apply negb_true_iff. apply Z.eqb_neq. lia.
      * f_equal. f_equal. lia.
Qed.

Lemma shr_record_of_loc_m (m : Z) (l : location) :
  shr_m (shr_record_of_loc m l) = m.
Proof. destruct l as [ | [ | | ] ]; reflexivity. Qed.

Lemma loc_of_shr_record_of_loc (m : Z) (l : location) :
  loc_of_shr_record (shr_record_of_loc m l) = l.
Proof. destruct l as [ | [ | | ] ]; reflexivity. Qed.

Lemma round_nearest_even_bounds (m : Z) (l : location) :
  m <= round_nearest_even m l <= m + 1.
Proof.
  destruct l as [ | [ | | ] ]; simpl; try lia.
  destruct (Z.even m); lia.
Qed.

(** ** Rounding keeps the sign

    For any format: a positive mantissa whose value is above the smallest
    exponent never rounds to a zero or a NaN, and a canonical mantissa is left
    as it is. *)

Section Rounding.

Variables prec emax : Z.
Hypothesis prec_pos : 0 < prec.
Hypothesis emax_pos : 3 <= emax.

Lemma emin_neg : emin prec emax < 0.
Proof. unfold emin. lia. Qed.

Lemma fexp_ge_emin (e : Z) : emin prec emax <= fexp prec emax e.
Proof. unfold fexp. lia. Qed.

Lemma shr_fexp_pos (m e : Z) (l : location) :
  0 < m ->
  emin prec emax < e + Zdigits2 m ->
  0 < shr_m (fst (shr_fexp prec emax m e l))
  /\ emin prec emax <= snd (shr_fexp prec emax m e l).
Proof.
  intros Hm He.
  destruct m as [ | p | p ]; try lia.
  unfold shr_fexp, shr. cbn [Zdigits2] in *.
  pose proof (fexp_ge_emin (Zpos (digits2_pos p) + e)) as Hf.
  assert (Hlt : fexp prec emax (Zpos (digits2_pos p) + e)
                < e + Zpos (digits2_pos p)) by (unfold fexp; lia).
  destruct (fexp prec emax (Zpos (digits2_pos p) + e) - e) as [ | k | k ]
    eqn:Hn; simpl fst; simpl snd.
  - rewrite shr_record_of_loc_m. lia.
  - rewrite shr_iter_m by (rewrite shr_record_of_loc_m; lia).
    rewrite shr_record_of_loc_m.
    split; [ | lia ].
    destruct (digits2_bounds p) as [Hlo _].
    assert (2 ^ Zpos k <= 2 ^ (Zpos (digits2_pos p) - 1))
      by (apply Z.pow_le_mono_r; lia).
    assert (1 <= Zpos p / 2 ^ Zpos k); [ | lia ].
    apply Z.div_le_lower_bound; lia.
  - rewrite shr_record_of_loc_m. lia.
Qed.

Lemma binary_round_aux_pos (sx : bool) (mx ex : Z) (lx : location) :
  0 < mx ->
  emin prec emax < ex + Zdigits2 mx ->
  (exists m e, binary_round_aux prec emax sx mx ex lx = S754_finite sx m e)
  \/ binary_round_aux prec emax sx mx ex lx = S754_infinity sx.
Proof.
  intros Hm He. unfold binary_round_aux.
  destruct (shr_fexp_pos mx ex lx Hm He) as [Hm1 He1].
  destruct (shr_fexp prec emax mx ex lx) as [mrs1 e1]; simpl in Hm1, He1.
  pose proof (round_nearest_even_bounds (shr_m mrs1)
                (loc_of_shr_record mrs1)) as Hr.
  set (m2 := round_nearest_even (shr_m mrs1) (loc_of_shr_record mrs1)) in *.
  assert (Hm2 : 0 < m2) by lia.
  assert (He2 : emin prec emax < e1 + Zdigits2 m2)
    by (destruct m2; simpl; lia).
  destruct (shr_fexp_pos m2 e1 loc_Exact Hm2 He2) as [Hm3 _].
  destruct (shr_fexp prec emax m2 e1 loc_Exact) as [mrs3 e3]; simpl in Hm3.
  destruct (shr_m mrs3) as [ | m | m ]; try lia.
  destruct (e3 <=? emax - prec); [ left; eauto | right; reflexivity ].
Qed.

Lemma binary_round_aux_canonical (sx : bool) (p : positive) (ex : Z) :
  canonical_mantissa prec emax p ex = true ->
  ex <= emax - prec ->
  binary_round_aux prec emax sx (Zpos p) ex loc_Exact = S754_finite sx p ex.
Proof.
  unfold canonical_mantissa. intros Hc Hb. apply Z.eqb_eq in Hc.
  unfold binary_round_aux, shr_fexp. cbn [Zdigits2].
  rewrite Hc, Z.sub_diag.
  cbn [shr shr_record_of_loc shr_m loc_of_shr_record round_nearest_even
       Zdigits2].
  rewrite Hc, Z.sub_diag.
  cbn [shr shr_record_of_loc shr_m].
  apply Z.leb_le in Hb. rewrite Hb. reflexivity.
Qed.

(** [binary_round] on an integer: the aligned mantissa keeps the number of
    digits above the smallest exponent. *)
Lemma binary_round_pos (sx : bool) (p : positive) :
  (exists m e, binary_round prec emax sx p 0 = S754_finite sx m e)
  \/ binary_round prec emax sx p 0 = S754_infinity sx.
Proof.
  unfold binary_round, shl_align.
  pose proof emin_neg as Hemin.
  destruct (fexp prec emax (Zpos (digits2_pos p) + 0) - 0) as [ | d | d ]
    eqn:Hd.
  - apply binary_round_aux_pos; simpl; lia.
  - apply binary_round_aux_pos; simpl; lia.
  - apply binary_round_aux_pos; [ lia | ].
    cbn [Zdigits2]. rewrite digits2_shift. lia.
Qed.

End Rounding.

(** ** Converting integers to binary64 *)

Lemma of_int_pos (c : Z) :
  0 < c ->
  (exists m e, F64.of_int c = S754_finite false m e)
  \/ F64.of_int c = S754_infinity false.
Proof.
  intros Hc. destruct c as [ | p | p ]; try lia.
  apply binary_round_pos; unfold F64.prec, F64.emax; lia.
Qed.

Lemma of_int_neg (c : Z) :
  c < 0 ->
  (exists m e, F64.of_int c = S754_finite true m e)
  \/ F64.of_int c = S754_infinity true.
Proof.
  intros Hc. destruct c as [ | p | p ]; try lia.
  apply binary_round_pos; unfold F64.prec, F64.emax; lia.
Qed.

(** The three comparisons of the accessors against the literal [0] decide
    the sign of the integer that was converted. *)
Lemma ltb_zero_of_int (c : Z) : F64.ltb F64.zero (F64.of_int c) = (0 <? c).
Proof.
  destruct (Z.lt_trichotomy c 0) as [Hc | [-> | Hc]].
  - destruct (of_int_neg c Hc) as [(m & e & ->) | ->];
      symmetry; cbn; apply Z.ltb_ge; lia.
  - reflexivity.
  - destruct (of_int_pos c Hc) as [(m & e & ->) | ->];
      symmetry; cbn; apply Z.ltb_lt; lia.
Qed.

Lemma leb_zero_of_int (c : Z) : F64.leb F64.zero (F64.of_int c) = (0 <=? c).
Proof.
  destruct (Z.lt_trichotomy c 0) as [Hc | [-> | Hc]].
  - destruct (of_int_neg c Hc) as [(m & e & ->) | ->];
      symmetry; cbn; apply Z.leb_gt; lia.
  - reflexivity.
  - destruct (of_int_pos c Hc) as [(m & e & ->) | ->];
      symmetry; cbn; apply Z.leb_le; lia.
Qed.

(** ** Integers of at most 53 bits are converted exactly *)

Lemma small_mantissa_digits (p : positive) :
  Zpos (digits2_pos p) <= 53 ->
  Zpos (digits2_pos (small_mantissa p)) = 53.
Proof.
  intros Hd. unfold small_mantissa.
  destruct (53 - Zpos (digits2_pos p)) as [ | k | k ] eqn:Hk; try lia.
  - rewrite Z.mul_1_r. simpl Z.to_pos. lia.
  - rewrite <- shift_value. simpl Z.to_pos. rewrite digits2_shift. lia.
Qed.

Lemma small_mantissa_value (p : positive) :
  Zpos (digits2_pos p) <= 53 ->
  Zpos (small_mantissa p) = Zpos p * 2 ^ (53 - Zpos (digits2_pos p)).
Proof.
  intros Hd. unfold small_mantissa. apply Z2Pos.id.
  apply Z.mul_pos_pos; [ lia | apply Z.pow_pos_nonneg; lia ].
Qed.

Lemma binary_round_small (sx : bool) (p : positive) :
  Zpos (digits2_pos p) <= 53 ->
  binary_round F64.prec F64.emax sx p 0
  = S754_finite sx (small_mantissa p) (small_exponent p).
Proof.
  intros Hd. unfold binary_round, shl_align, small_mantissa, small_exponent.
  assert (Hf : fexp F64.prec F64.emax (Zpos (digits2_pos p) + 0)
               = Zpos (digits2_pos p) - 53)
    by (unfold fexp, emin, F64.prec, F64.emax; lia).
  rewrite Hf.
  destruct (Zpos (digits2_pos p) - 53 - 0) as [ | k | k ] eqn:Hk; try lia.
  - replace (53 - Zpos (digits2_pos p)) with 0 by lia.
    rewrite Z.mul_1_r. simpl Z.to_pos.
    replace (Zpos (digits2_pos p) - 53) with 0 by lia.
    apply binary_round_aux_canonical.
    + unfold canonical_mantissa. apply Z.eqb_eq.
      unfold fexp, emin, F64.prec, F64.emax. lia.
    + unfold F64.prec, F64.emax. lia.
  - replace (53 - Zpos (digits2_pos p)) with (Zpos k) by lia.
    rewrite <- shift_value. simpl Z.to_pos.
    apply binary_round_aux_canonical.
    + unfold canonical_mantissa. apply Z.eqb_eq.
      rewrite digits2_shift.
      unfold fexp, emin, F64.prec, F64.emax. lia.
    + unfold F64.prec, F64.emax. lia.
Qed.

Lemma trunc_small (sx : bool) (p : positive) :
  Zpos (digits2_pos p) <= 53 ->
  F64.trunc (S754_finite sx (small_mantissa p) (small_exponent p))
  = Some (cond_Zopp sx (Zpos p)).
Proof.
  intros Hd. unfold F64.trunc, small_mantissa, small_exponent.
  do 2 f_equal.
  destruct (Zpos (digits2_pos p) - 53) as [ | k | k ] eqn:Hk; try lia.
  - replace (53 - Zpos (digits2_pos p)) with 0 by lia.
    rewrite Z.mul_1_r. reflexivity.
  - replace (53 - Zpos (digits2_pos p)) with (Zpos k) by lia.
    rewrite Z2Pos.id by lia.
    change (- Zneg k) with (Zpos k).
    apply Z.div_mul. lia.
Qed.

(** [int64(float64(c)) = c] up to [2 ^ 53] in magnitude, on every platform. *)
Lemma to_int64_of_int (indefinite : float64 -> Z) (c : Z) :
  Z.abs c <= 2 ^ 53 -> to_int64 indefinite (F64.of_int c) = c.
Proof.
  intros Hc.
  destruct (Z.eq_dec c (2 ^ 53)) as [-> | Hhi]; [ reflexivity | ].
  destruct (Z.eq_dec c (- 2 ^ 53)) as [-> | Hlo]; [ reflexivity | ].
  assert (Hin : in_int64 c = true).
  { unfold in_int64, min_int64, max_int64.
    apply andb_true_intro; split; apply Z.leb_le; lia. }
  unfold to_int64.
  destruct c as [ | p | p ].
  - reflexivity.
  - unfold F64.of_int, binary_normalize.
    rewrite binary_round_small, trunc_small by (apply digits2_le_53; lia).
    simpl cond_Zopp. rewrite Hin. reflexivity.
  - unfold F64.of_int, binary_normalize.
    rewrite binary_round_small, trunc_small by (apply digits2_le_53; lia).
    simpl cond_Zopp. rewrite Hin. reflexivity.
Qed.

(** ** Rounding mantissas of 53 and 54 digits *)

Lemma fexp_normal (x : Z) : -1021 <= x -> fexp F64.prec F64.emax x = x - 53.
Proof. unfold fexp, emin, F64.prec, F64.emax. lia. Qed.

(** The second half of [binary_round_aux]: a mantissa that rounding has
    brought to [2 ^ 53] is renormalised. *)
Lemma renormalise (sx : bool) (m2 e : Z) :
  2 ^ 52 <= m2 <= 2 ^ 53 ->
  -1074 <= e <= 970 ->
  exists m,
    Zpos (digits2_pos m) = 53
    /\ (let '(mrs, e') := shr_fexp F64.prec F64.emax m2 e loc_Exact in
        match shr_m mrs with
        | 0 => S754_zero sx
        | Zpos m =>
            if e' <=? F64.emax - F64.prec
            then S754_finite sx m e' else S754_infinity sx
        | Zneg _ => S754_nan
        end)
       = S754_finite sx m (if m2 <? 2 ^ 53 then e else e + 1)
    /\ Zpos m = (if m2 <? 2 ^ 53 then m2 else 2 ^ 52).
Proof.
  intros Hm He. unfold shr_fexp.
  destruct (Z.ltb_spec m2 (2 ^ 53)) as [Hlt | Hge].
  - destruct m2 as [ | p2 | p2 ]; try lia.
    assert (Hd2 : Zpos (digits2_pos p2) = 53)
      by (apply digits2_unique; change (2 ^ (53 - 1)) with (2 ^ 52); lia).
    exists p2. split; [ exact Hd2 | ].
    cbn [Zdigits2]. rewrite Hd2, fexp_normal by lia.
    replace (53 + e - 53 - e) with 0 by lia.
    cbn [shr shr_record_of_loc shr_m].
    replace (e <=? F64.emax - F64.prec) with true
      by (symmetry; apply Z.leb_le; unfold F64.emax, F64.prec; lia).
    split; reflexivity.
  - assert (Hm2 : m2 = 2 ^ 53) by lia.
    exists (Z.to_pos (2 ^ 52)). split; [ reflexivity | ].
    rewrite Hm2.
    change (Zdigits2 (2 ^ 53)) with 54.
    rewrite fexp_normal by lia.
    replace (54 + e - 53 - e) with 1 by lia.
    cbn [shr shr_record_of_loc iter_pos].
    change (shr_m (shr_1 {| shr_m := 2 ^ 53; shr_r := false; shr_s := false |}))
      with (Zpos (Z.to_pos (2 ^ 52))).
    cbv iota.
    replace (e + 1 <=? F64.emax - F64.prec) with true
      by (symmetry; apply Z.leb_le; unfold F64.emax, F64.prec; lia).
    split; reflexivity.
Qed.

(** Rounding a mantissa of 53 digits. *)
Lemma round_53 (sx : bool) (q : positive) (ex : Z) (l : location) :
  Zpos (digits2_pos q) = 53 ->
  -1074 <= ex <= 970 ->
  exists m,
    Zpos (digits2_pos m) = 53
    /\ binary_round_aux F64.prec F64.emax sx (Zpos q) ex l
       = S754_finite sx m
           (if round_nearest_even (Zpos q) l <? 2 ^ 53 then ex else ex + 1)
    /\ Zpos m = (if round_nearest_even (Zpos q) l <? 2 ^ 53
                 then round_nearest_even (Zpos q) l else 2 ^ 52).
Proof.
  intros Hd Hex.
  destruct (digits2_bounds q) as [Hlo Hhi]. rewrite Hd in Hlo, Hhi.
  change (2 ^ (53 - 1)) with (2 ^ 52) in Hlo.
  unfold binary_round_aux. unfold shr_fexp at 1. cbn [Zdigits2].
  rewrite Hd, fexp_normal by lia.
  replace (53 + ex - 53 - ex) with 0 by lia.
  cbn [shr]. rewrite shr_record_of_loc_m, loc_of_shr_record_of_loc.
  pose proof (round_nearest_even_bounds (Zpos q) l) as Hr.
  apply renormalise; lia.
Qed.

(** Rounding a mantissa of 54 digits: one bit is shifted out. *)
Lemma round_54 (sx : bool) (q : positive) (ex : Z) (l : location) :
  Zpos (digits2_pos q) = 54 ->
  -1075 <= ex <= 969 ->
  let l' := loc_of_shr_record
              {| shr_m := Zpos q / 2; shr_r := Z.odd (Zpos q);
                 shr_s := negb match l with
                               | loc_Exact => true
                               | loc_Inexact _ => false
                               end |} in
  exists m,
    Zpos (digits2_pos m) = 53
    /\ binary_round_aux F64.prec F64.emax sx (Zpos q) ex l
       = S754_finite sx m
           (if round_nearest_even (Zpos q / 2) l' <? 2 ^ 53
            then ex + 1 else ex + 2)
    /\ Zpos m = (if round_nearest_even (Zpos q / 2) l' <? 2 ^ 53
                 then round_nearest_even (Zpos q / 2) l' else 2 ^ 52).
Proof.
  intros Hd Hex l'.
  destruct (digits2_bounds q) as [Hlo Hhi]. rewrite Hd in Hlo, Hhi.
  change (2 ^ (54 - 1)) with (2 ^ 53) in Hlo.
  unfold binary_round_aux. unfold shr_fexp at 1. cbn [Zdigits2].
  rewrite Hd, fexp_normal by lia.
  replace (54 + ex - 53 - ex) with 1 by lia.
  cbn [shr iter_pos].
  rewrite shr_1_spec by (rewrite shr_record_of_loc_m; lia).
  rewrite shr_record_of_loc_m. cbn [shr_m].
  assert (Hs : shr_r (shr_record_of_loc (Zpos q) l)
               || shr_s (shr_record_of_loc (Zpos q) l)
               = negb (match l with loc_Exact => true | _ => false end))
    by (destruct l as [ | [ | | ] ]; reflexivity).
  rewrite Hs. fold l'.
  assert (Hq : 2 ^ 52 <= Zpos q / 2 < 2 ^ 53).
  { split.
    - apply Z.div_le_lower_bound; lia.
    - apply Z.div_lt_upper_bound; lia. }
  pose proof (round_nearest_even_bounds (Zpos q / 2) l') as Hr.
  destruct (renormalise sx (round_nearest_even (Zpos q / 2) l') (ex + 1))
    as (m & Hdm & Hres & Hm); try lia.
  exists m. split; [ exact Hdm | ]. split; [ | exact Hm ].
  rewrite Hres.
  destruct (round_nearest_even (Zpos q / 2) l' <? 2 ^ 53);
    f_equal; lia.
Qed.

(** ** Integers of more than 53 bits are rounded to nearest *)

Lemma round_nearest_even_rounded (m k : Z) :
  round_nearest_even (m / 2 ^ k)
    (loc_of_shr_record
       {| shr_m := m / 2 ^ k;
          shr_r := Z.odd (m / 2 ^ (k - 1));
          shr_s := negb (m mod 2 ^ (k - 1) =? 0) |})
  = rounded m k.
Proof.
  unfold rounded, round_up, loc_of_shr_record.
  destruct (Z.odd (m / 2 ^ (k - 1))), (m mod 2 ^ (k - 1) =? 0);
    cbn [negb andb orb round_nearest_even]; try lia.
  rewrite <- Z.negb_odd.
  destruct (Z.odd (m / 2 ^ k)); cbn [negb]; lia.
Qed.

Lemma rounded_bounds (m k : Z) : m / 2 ^ k <= rounded m k <= m / 2 ^ k + 1.
Proof. unfold rounded. destruct (round_up m k); lia. Qed.

(** Rounding to a multiple of [2 ^ k] is monotone. *)
Lemma rounded_mono (m1 m2 k : Z) :
  0 < k -> 0 <= m1 <= m2 -> rounded m1 k <= rounded m2 k.
Proof.
  intros Hk Hm. unfold rounded.
  assert (Hp : 0 < 2 ^ k) by (apply Z.pow_pos_nonneg; lia).
  assert (Hq : m1 / 2 ^ k <= m2 / 2 ^ k) by (apply Z.div_le_mono; lia).
  destruct (Z.eq_dec (m1 / 2 ^ k) (m2 / 2 ^ k)) as [Heq | Hne].
  - assert (Hrho : m1 mod 2 ^ k <= m2 mod 2 ^ k).
    { pose proof (Z.div_mod m1 (2 ^ k) ltac:(lia)).
      pose proof (Z.div_mod m2 (2 ^ k) ltac:(lia)).
      rewrite Heq in *. lia. }
    rewrite !(mod_pow2_succ _ k) in Hrho by lia.
    assert (Hh : 0 < 2 ^ (k - 1)) by (apply Z.pow_pos_nonneg; lia).
    pose proof (Z.mod_pos_bound m1 (2 ^ (k - 1)) Hh) as Ht1.
    pose proof (Z.mod_pos_bound m2 (2 ^ (k - 1)) Hh) as Ht2.
    unfold round_up. rewrite Heq.
    destruct (Z.odd (m1 / 2 ^ (k - 1))), (Z.odd (m2 / 2 ^ (k - 1)));
      destruct (Z.eqb_spec (m1 mod 2 ^ (k - 1)) 0),
               (Z.eqb_spec (m2 mod 2 ^ (k - 1)) 0);
      destruct (Z.odd (m2 / 2 ^ k)); cbn; lia.
  - destruct (round_up m1 k), (round_up m2 k); lia.
Qed.

Lemma quotient_53 (p : positive) :
  53 < Zpos (digits2_pos p) ->
  2 ^ 52 <= Zpos p / 2 ^ (Zpos (digits2_pos p) - 53) < 2 ^ 53.
Proof.
  intros Hd. destruct (digits2_bounds p) as [Hlo Hhi].
  set (d := Zpos (digits2_pos p)) in *.
  assert (Hk : 0 < 2 ^ (d - 53)) by (apply Z.pow_pos_nonneg; lia).
  assert (H1 : 2 ^ (d - 1) = 2 ^ 52 * 2 ^ (d - 53))
    by (rewrite <- Z.pow_add_r by lia; f_equal; lia).
  assert (H2 : 2 ^ d = 2 ^ 53 * 2 ^ (d - 53))
    by (rewrite <- Z.pow_add_r by lia; f_equal; lia).
  split.
  - apply Z.div_le_lower_bound; lia.
  - apply Z.div_lt_upper_bound; lia.
Qed.

(** The float of an integer of more than 53 bits. *)
Lemma binary_round_big (sx : bool) (p : positive) :
  53 < Zpos (digits2_pos p) <= 1000 ->
  let k := Zpos (digits2_pos p) - 53 in
  exists m,
    Zpos (digits2_pos m) = 53
    /\ binary_round F64.prec F64.emax sx p 0
       = S754_finite sx m (if rounded (Zpos p) k <? 2 ^ 53 then k else k + 1)
    /\ Zpos m = (if rounded (Zpos p) k <? 2 ^ 53
                 then rounded (Zpos p) k else 2 ^ 52).
Proof.
  intros Hd k.
  unfold binary_round, shl_align.
  rewrite fexp_normal by lia.
  destruct (Zpos (digits2_pos p) + 0 - 53 - 0) as [ | k' | k' ] eqn:Hk;
    try lia.
  unfold binary_round_aux. unfold shr_fexp at 1. cbn [Zdigits2].
  rewrite fexp_normal by lia. rewrite Hk.
  cbn [shr shr_record_of_loc].
  rewrite shr_iter_exact by lia. cbn [shr_m].
  rewrite round_nearest_even_rounded.
  replace (Zpos k') with k by (unfold k; lia).
  pose proof (quotient_53 p ltac:(lia)) as Hq. fold k in Hq.
  pose proof (rounded_bounds (Zpos p) k) as Hr.
  destruct (renormalise sx (rounded (Zpos p) k) (0 + k))
    as (m & Hdm & Hres & Hm); try (unfold k in *; lia).
  exists m. split; [ exact Hdm | ]. split; [ | exact Hm ].
  rewrite Hres. destruct (rounded (Zpos p) k <? 2 ^ 53); f_equal; lia.
Qed.

(** The float of a positive integer below [2 ^ 64], and its value. *)
Lemma binary_round_value (sx : bool) (p : positive) :
  Zpos p < 2 ^ 64 ->
  exists m e,
    binary_round F64.prec F64.emax sx p 0 = S754_finite sx m e
    /\ Zpos (digits2_pos m) = 53
    /\ -52 <= e <= 12
    /\ Zpos m * 2 ^ (e + 52) = nearest p * 2 ^ 52.
Proof.
  intros Hp. pose proof (digits2_le p 64 ltac:(lia) Hp) as Hd.
  unfold nearest.
  destruct (Z.leb_spec (Zpos (digits2_pos p)) 53) as [Hs | Hb].
  - exists (small_mantissa p), (small_exponent p).
    split; [ apply binary_round_small; exact Hs | ].
    split; [ apply small_mantissa_digits; exact Hs | ].
    unfold small_exponent. split; [ lia | ].
    rewrite small_mantissa_value by exact Hs.
    rewrite <- Z.mul_assoc, <- Z.pow_add_r by lia.
    do 2 f_equal. lia.
  - destruct (binary_round_big sx p ltac:(lia)) as (m & Hdm & Hres & Hm).
    set (k := Zpos (digits2_pos p) - 53) in *.
    pose proof (quotient_53 p Hb) as Hq. fold k in Hq.
    pose proof (rounded_bounds (Zpos p) k) as Hr.
    exists m. eexists. split; [ exact Hres | ]. split; [ exact Hdm | ].
    rewrite Hm.
    destruct (Z.ltb_spec (rounded (Zpos p) k) (2 ^ 53)) as [Hno | Hcarry].
    + split; [ unfold k; lia | ].
      rewrite Z.pow_add_r by (unfold k; lia). lia.
    + split; [ unfold k; lia | ].
      replace (rounded (Zpos p) k) with (2 ^ 53) by lia.
      rewrite !Z.pow_add_r by (unfold k; lia).
      change (2 ^ 53) with (2 ^ 52 * 2 ^ 1). lia.
Qed.

Lemma nearest_pos (p : positive) : 0 < nearest p.
Proof.
  unfold nearest.
  destruct (Z.leb_spec (Zpos (digits2_pos p)) 53) as [Hs | Hb]; [ lia | ].
  pose proof (quotient_53 p Hb) as Hq.
  pose proof (rounded_bounds (Zpos p) (Zpos (digits2_pos p) - 53)) as Hr.
  apply Z.mul_pos_pos; [ lia | apply Z.pow_pos_nonneg; lia ].
Qed.

Lemma nearest_mono (p1 p2 : positive) :
  Zpos p1 <= Zpos p2 -> nearest p1 <= nearest p2.
Proof.
  intros Hp. pose proof (digits2_mono p1 p2 Hp) as Hd.
  unfold nearest.
  destruct (Z.leb_spec (Zpos (digits2_pos p1)) 53) as [Hs1 | Hb1];
    destruct (Z.leb_spec (Zpos (digits2_pos p2)) 53) as [Hs2 | Hb2];
    try lia.
  - (* 53 bits or fewer against more *)
    pose proof (quotient_53 p2 Hb2) as Hq2.
    pose proof (rounded_bounds (Zpos p2) (Zpos (digits2_pos p2) - 53)) as Hr2.
    pose proof (digits2_le_53 p1) as _.
    destruct (digits2_bounds p1) as [_ Hhi1].
    assert (2 ^ Zpos (digits2_pos p1) <= 2 ^ 53)
      by (apply Z.pow_le_mono_r; lia).
    assert (2 ^ 1 <= 2 ^ (Zpos (digits2_pos p2) - 53))
      by (apply Z.pow_le_mono_r; lia).
    assert (2 ^ 52 * 2 ^ 1
            <= rounded (Zpos p2) (Zpos (digits2_pos p2) - 53)
               * 2 ^ (Zpos (digits2_pos p2) - 53))
      by (apply Z.mul_le_mono_nonneg; lia).
    lia.
  - set (d1 := Zpos (digits2_pos p1)) in *.
    set (d2 := Zpos (digits2_pos p2)) in *.
    destruct (Z.eq_dec d1 d2) as [Heq | Hne].
    + rewrite Heq. apply Z.mul_le_mono_nonneg_r.
      * apply Z.pow_nonneg. lia.
      * apply rounded_mono; lia.
    + pose proof (quotient_53 p1 Hb1) as Hq1. fold d1 in Hq1.
      pose proof (quotient_53 p2 Hb2) as Hq2. fold d2 in Hq2.
      pose proof (rounded_bounds (Zpos p1) (d1 - 53)) as Hr1.
      pose proof (rounded_bounds (Zpos p2) (d2 - 53)) as Hr2.
      assert (Hk1 : 0 < 2 ^ (d1 - 53)) by (apply Z.pow_pos_nonneg; lia).
      assert (Hk2 : 2 ^ (d2 - 53) = 2 ^ (d2 - d1 - 1) * 2 * 2 ^ (d1 - 53)).
      { replace (d2 - 53) with ((d2 - d1 - 1) + 1 + (d1 - 53)) by lia.
        rewrite !Z.pow_add_r by lia. reflexivity. }
      assert (Hk3 : 0 < 2 ^ (d2 - d1 - 1)) by (apply Z.pow_pos_nonneg; lia).
      rewrite Hk2.
      assert (rounded (Zpos p1) (d1 - 53) * 2 ^ (d1 - 53)
              <= 2 ^ 53 * 2 ^ (d1 - 53))
        by (apply Z.mul_le_mono_nonneg_r; lia).
      assert (2 ^ 52 * (2 ^ (d2 - d1 - 1) * 2 * 2 ^ (d1 - 53))
              <= rounded (Zpos p2) (d2 - 53)
                 * (2 ^ (d2 - d1 - 1) * 2 * 2 ^ (d1 - 53)))
        by (apply Z.mul_le_mono_nonneg_r; nia).
      nia.
Qed.

Lemma nearest_int_mono (c1 c2 : Z) :
  c1 <= c2 -> nearest_int c1 <= nearest_int c2.
Proof.
  intros Hc.
  destruct c1 as [ | p1 | p1 ], c2 as [ | p2 | p2 ]; cbn [nearest_int];
    try lia;
    try (pose proof (nearest_pos p1)); try (pose proof (nearest_pos p2));
    try lia.
  - apply nearest_mono. lia.
  - assert (nearest p2 <= nearest p1) by (apply nearest_mono; lia). lia.
Qed.

Lemma nearest_int_exact (c : Z) :
  Z.abs c <= 2 ^ 53 -> nearest_int c = c.
Proof.
  intros Hc.
  destruct (Z.eq_dec c (2 ^ 53)) as [-> | Hhi]; [ reflexivity | ].
  destruct (Z.eq_dec c (- 2 ^ 53)) as [-> | Hlo]; [ reflexivity | ].
  destruct c as [ | p | p ]; cbn [nearest_int]; [ reflexivity | | ];
    unfold nearest;
    replace (Zpos (digits2_pos p) <=? 53) with true
      by (symmetry; apply Z.leb_le; apply digits2_le_53; lia);
    reflexivity.
Qed.

(** ** Comparing the floats of integers *)

Lemma ltb_finite_pos (m1 m2 : positive) (e1 e2 : Z) :
  F64.ltb (S754_finite false m1 e1) (S754_finite false m2 e2) = true
  <-> e1 < e2 \/ (e1 = e2 /\ Zpos m1 < Zpos m2).
Proof.
  unfold F64.ltb, SFltb, SFcompare.
  destruct (Z.compare_spec e1 e2) as [He | He | He].
  - change (Pos.compare_cont Eq m1 m2) with (Pos.compare m1 m2).
    destruct (Pos.compare_spec m1 m2) as [Hm | Hm | Hm]; split;
      try discriminate; try reflexivity; try lia.
  - split; [ lia | reflexivity ].
  - split; [ discriminate | lia ].
Qed.

(** Among normal floats a smaller value has a smaller exponent, or the same
    exponent and a smaller mantissa. *)
Lemma normal_le (m1 m2 : positive) (e1 e2 : Z) :
  Zpos (digits2_pos m1) = 53 -> Zpos (digits2_pos m2) = 53 ->
  -52 <= e1 -> -52 <= e2 ->
  Zpos m1 * 2 ^ (e1 + 52) <= Zpos m2 * 2 ^ (e2 + 52) ->
  e1 < e2 \/ (e1 = e2 /\ Zpos m1 <= Zpos m2).
Proof.
  intros Hd1 Hd2 He1 He2 Hv.
  destruct (digits2_bounds m1) as [Hlo1 Hhi1].
  destruct (digits2_bounds m2) as [Hlo2 Hhi2].
  rewrite Hd1 in Hlo1, Hhi1. rewrite Hd2 in Hlo2, Hhi2.
  change (2 ^ (53 - 1)) with (2 ^ 52) in *.
  destruct (Z.lt_trichotomy e1 e2) as [Hlt | [Heq | Hgt]].
  - left. exact Hlt.
  - right. split; [ exact Heq | ]. subst e2.
    apply Z.mul_le_mono_pos_r in Hv; [ exact Hv | ].
    apply Z.pow_pos_nonneg; lia.
  - exfalso.
    assert (Hp : 2 ^ (e1 + 52) = 2 ^ (e1 - e2 - 1) * 2 * 2 ^ (e2 + 52)).
    { replace (e1 + 52) with ((e1 - e2 - 1) + 1 + (e2 + 52)) by lia.
      rewrite !Z.pow_add_r by lia. reflexivity. }
    assert (H0 : 0 < 2 ^ (e2 + 52)) by (apply Z.pow_pos_nonneg; lia).
    assert (H1 : 0 < 2 ^ (e1 - e2 - 1)) by (apply Z.pow_pos_nonneg; lia).
    rewrite Hp in Hv. nia.
Qed.

Lemma mul_compare_r (a b p : Z) : 0 < p -> (a * p ?= b * p) = (a ?= b).
Proof.
  intros Hp. destruct (Z.compare_spec a b) as [-> | Hlt | Hgt].
  - apply Z.compare_refl.
  - apply Z.compare_lt_iff. apply Z.mul_lt_mono_pos_r; assumption.
  - apply Z.compare_gt_iff. apply Z.mul_lt_mono_pos_r; assumption.
Qed.

(** Normal floats compare as their values. *)
Lemma normal_compare (m1 m2 : positive) (e1 e2 : Z) :
  Zpos (digits2_pos m1) = 53 -> Zpos (digits2_pos m2) = 53 ->
  -52 <= e1 -> -52 <= e2 ->
  match e1 ?= e2 with
  | Lt => Lt
  | Gt => Gt
  | Eq => Pos.compare_cont Eq m1 m2
  end = (Zpos m1 * 2 ^ (e1 + 52) ?= Zpos m2 * 2 ^ (e2 + 52)).
Proof.
  intros Hd1 Hd2 He1 He2.
  assert (Hle : forall a b ea eb,
             Zpos (digits2_pos a) = 53 -> Zpos (digits2_pos b) = 53 ->
             -52 <= ea -> ea < eb ->
             Zpos a * 2 ^ (ea + 52) < Zpos b * 2 ^ (eb + 52)).
  { intros a b ea eb Ha Hb Hea Hlt.
    destruct (Z_lt_le_dec (Zpos a * 2 ^ (ea + 52)) (Zpos b * 2 ^ (eb + 52)))
      as [ | Hge ]; [ assumption | exfalso ].
    destruct (normal_le b a eb ea Hb Ha) as [ | [? _] ]; lia. }
  destruct (Z.compare_spec e1 e2) as [He | He | He].
  - subst e2. change (Pos.compare_cont Eq m1 m2) with (Zpos m1 ?= Zpos m2).
    symmetry. apply mul_compare_r. apply Z.pow_pos_nonneg; lia.
  - symmetry. apply Z.compare_lt_iff. apply Hle; assumption.
  - symmetry. apply Z.compare_gt_iff. apply Hle; assumption.
Qed.

Lemma normal_compare_opp (m1 m2 : positive) (e1 e2 : Z) :
  Zpos (digits2_pos m1) = 53 -> Zpos (digits2_pos m2) = 53 ->
  -52 <= e1 -> -52 <= e2 ->
  match e1 ?= e2 with
  | Lt => Gt
  | Gt => Lt
  | Eq => CompOpp (Pos.compare_cont Eq m1 m2)
  end = (Zpos m2 * 2 ^ (e2 + 52) ?= Zpos m1 * 2 ^ (e1 + 52)).
Proof.
  intros Hd1 Hd2 He1 He2.
  rewrite (Z.compare_antisym (Zpos m1 * 2 ^ (e1 + 52))).
  rewrite <- (normal_compare m1 m2 e1 e2) by assumption.
  destruct (e1 ?= e2); reflexivity.
Qed.

(** Comparing the floats of two integers compares their nearest values. *)
Lemma compare_of_int (c1 c2 : Z) :
  Z.abs c1 < 2 ^ 64 -> Z.abs c2 < 2 ^ 64 ->
  SFcompare (F64.of_int c1) (F64.of_int c2)
  = Some (nearest_int c1 ?= nearest_int c2).
Proof.
  intros H1 H2. unfold F64.of_int, binary_normalize.
  destruct c1 as [ | p1 | p1 ], c2 as [ | p2 | p2 ]; cbn [nearest_int];
    try (destruct (binary_round_value false p1 ltac:(lia))
          as (m1 & e1 & -> & Hd1 & He1 & Hv1));
    try (destruct (binary_round_value true p1 ltac:(lia))
          as (m1 & e1 & -> & Hd1 & He1 & Hv1));
    try (destruct (binary_round_value false p2 ltac:(lia))
          as (m2 & e2 & -> & Hd2 & He2 & Hv2));
    try (destruct (binary_round_value true p2 ltac:(lia))
          as (m2 & e2 & -> & Hd2 & He2 & Hv2));
    try (pose proof (nearest_pos p1)); try (pose proof (nearest_pos p2));
    cbn [SFcompare]; f_equal; symmetry;
    try (apply Z.compare_lt_iff; lia);
    try (apply Z.compare_gt_iff; lia);
    try reflexivity.
  - symmetry. etransitivity; [ apply normal_compare; lia | ].
    rewrite Hv1, Hv2. apply mul_compare_r. lia.
  - symmetry. etransitivity; [ apply normal_compare_opp; lia | ].
    rewrite Hv1, Hv2, mul_compare_r by lia.
    symmetry. apply Z.compare_opp.
Qed.

(** The conversion to [float64] is monotone. *)
Lemma of_int_mono (c1 c2 : Z) :
  min_int64 <= c1 -> c1 <= c2 -> c2 <= max_int64 ->
  F64.leb (F64.of_int c1) (F64.of_int c2) = true.
Proof.
  unfold min_int64, max_int64. intros Hlo Hc Hhi.
  unfold F64.leb, SFleb. rewrite compare_of_int by lia.
  pose proof (nearest_int_mono c1 c2 Hc) as Hn.
  destruct (Z.compare_spec (nearest_int c1) (nearest_int c2));
    try reflexivity; lia.
Qed.

(** Up to [2 ^ 53] in magnitude it reflects the order of the integers. *)
Lemma leb_of_int_exact (c1 c2 : Z) :
  Z.abs c1 <= 2 ^ 53 -> Z.abs c2 <= 2 ^ 53 ->
  F64.leb (F64.of_int c1) (F64.of_int c2) = (c1 <=? c2).
Proof.
  intros H1 H2. unfold F64.leb, SFleb. rewrite compare_of_int by lia.
  rewrite !nearest_int_exact by assumption.
  unfold Z.leb. destruct (c1 ?= c2); reflexivity.
Qed.

Lemma ltb_of_int_exact (c1 c2 : Z) :
  Z.abs c1 <= 2 ^ 53 -> Z.abs c2 <= 2 ^ 53 ->
  F64.ltb (F64.of_int c1) (F64.of_int c2) = (c1 <? c2).
Proof.
  intros H1 H2. unfold F64.ltb, SFltb. rewrite compare_of_int by lia.
  rewrite !nearest_int_exact by assumption.
  unfold Z.ltb. destruct (c1 ?= c2); reflexivity.
Qed.

(** The integer part of the float of an integer is its nearest value. *)
Lemma trunc_of_int (c : Z) :
  Z.abs c < 2 ^ 64 -> F64.trunc (F64.of_int c) = Some (nearest_int c).
Proof.
  intros Hc. unfold F64.of_int, binary_normalize.
  assert (Hfin : forall sx p,
             Zpos p < 2 ^ 64 ->
             F64.trunc (binary_round F64.prec F64.emax sx p 0)
             = Some (cond_Zopp sx (nearest p))).
  { intros sx p Hp.
    destruct (binary_round_value sx p Hp) as (m & e & -> & Hd & He & Hv).
    unfold F64.trunc. do 2 f_equal.
    destruct e as [ | e | e ].
    - change (2 ^ (0 + 52)) with (2 ^ 52) in Hv. lia.
    - rewrite Z.pow_add_r in Hv by lia. lia.
    - change (- Zneg e) with (Zpos e).
      assert (Hm : Zpos m = nearest p * 2 ^ Zpos e).
      { assert (Hp52 : 2 ^ 52 = 2 ^ (Zneg e + 52) * 2 ^ Zpos e)
          by (rewrite <- Z.pow_add_r by lia; f_equal; lia).
        rewrite Hp52 in Hv.
        assert (0 < 2 ^ (Zneg e + 52)) by (apply Z.pow_pos_nonneg; lia).
        nia. }
      rewrite Hm. apply Z.div_mul. apply Z.pow_nonzero; lia. }
  destruct c as [ | p | p ]; [ reflexivity | | ]; cbn [nearest_int];
    rewrite Hfin by lia; reflexivity.
Qed.

(** [int64(float64(c))] is the nearest value when it is an [int64]. *)
Lemma to_int64_of_int_nearest (indefinite : float64 -> Z) (c : Z) :
  Z.abs c < 2 ^ 64 ->
  in_int64 (nearest_int c) = true ->
  to_int64 indefinite (F64.of_int c) = nearest_int c.
Proof.
  intros Hc Hin. unfold to_int64.
  rewrite trunc_of_int by exact Hc. rewrite Hin. reflexivity.
Qed.

(** A positive [int64] becomes a positive normal float. *)
Lemma of_int_normal (c : Z) :
  0 < c <= max_int64 ->
  exists m e,
    F64.of_int c = S754_finite false m e
    /\ Zpos (digits2_pos m) = 53
    /\ -52 <= e <= 12.
Proof.
  unfold max_int64. intros Hc. destruct c as [ | p | p ]; try lia.
  destruct (binary_round_value false p ltac:(lia))
    as (m & e & Hr & Hd & He & _).
  exists m, e. repeat split; try assumption; lia.
Qed.

(** ** Division of normal floats *)

Lemma new_location_Gt (nb r : Z) :
  0 < nb -> nb < 2 * r -> new_location nb r = loc_Inexact Gt.
Proof.
  intros Hnb Hr. unfold new_location.
  destruct (Z.even nb); unfold new_location_even, new_location_odd;
    replace (r =? 0) with false by (symmetry; apply Z.eqb_neq; lia).
  - replace (2 * r ?= nb) with Gt; [ reflexivity | ].
    symmetry. apply Z.compare_gt_iff. lia.
  - replace (2 * r + 1 ?= nb) with Gt; [ reflexivity | ].
    symmetry. apply Z.compare_gt_iff. lia.
Qed.

Lemma new_location_inexact (nb r : Z) :
  r <> 0 -> new_location nb r <> loc_Exact.
Proof.
  intros Hr. unfold new_location.
  destruct (Z.even nb); unfold new_location_even, new_location_odd;
    replace (r =? 0) with false by (symmetry; apply Z.eqb_neq; lia);
    discriminate.
Qed.

(** The quotient of two normal floats is the rounding of the integer
    quotient of the first mantissa, shifted left by 53 bits, by the second. *)
Lemma div_finite (sx sy : bool) (m1 m2 : positive) (e1 e2 : Z) :
  Zpos (digits2_pos m1) = 53 -> Zpos (digits2_pos m2) = 53 ->
  -500 <= e1 <= 500 -> -500 <= e2 <= 500 ->
  F64.div (S754_finite sx m1 e1) (S754_finite sy m2 e2)
  = binary_round_aux F64.prec F64.emax (xorb sx sy)
      (Zpos m1 * 2 ^ 53 / Zpos m2) (e1 - e2 - 53)
      (new_location (Zpos m2) ((Zpos m1 * 2 ^ 53) mod Zpos m2)).
Proof.
  intros Hd1 Hd2 He1 He2.
  unfold F64.div, SFdiv, SFdiv_core_binary. cbn [Zdigits2].
  rewrite Hd1, Hd2.
  assert (Hmin : Z.min (fexp F64.prec F64.emax (53 + e1 - (53 + e2)))
                       (e1 - e2) = e1 - e2 - 53)
    by (unfold fexp, emin, F64.prec, F64.emax; lia).
  rewrite Hmin.
  replace (e1 - e2 - (e1 - e2 - 53)) with 53 by lia.
  cbv iota.
  rewrite Z.shiftl_mul_pow2 by lia.
  unfold Z.div, Z.modulo.
  destruct (Z.div_eucl (Zpos m1 * 2 ^ 53) (Zpos m2)) as [q r].
  reflexivity.
Qed.

(** The quotient has 53 or 54 digits. *)
Lemma div_quotient_digits (m1 m2 : positive) :
  Zpos (digits2_pos m1) = 53 -> Zpos (digits2_pos m2) = 53 ->
  exists q : positive,
    Zpos m1 * 2 ^ 53 / Zpos m2 = Zpos q
    /\ (Zpos (digits2_pos q) = 53 /\ Zpos q < 2 ^ 53
        \/ Zpos (digits2_pos q) = 54 /\ 2 ^ 53 <= Zpos q).
Proof.
  intros Hd1 Hd2.
  destruct (digits2_bounds m1) as [Hlo1 Hhi1].
  destruct (digits2_bounds m2) as [Hlo2 Hhi2].
  rewrite Hd1 in Hlo1, Hhi1. rewrite Hd2 in Hlo2, Hhi2.
  change (2 ^ (53 - 1)) with (2 ^ 52) in *.
  pose proof (Z_div_mod (Zpos m1 * 2 ^ 53) (Zpos m2) ltac:(lia)) as Hdm.
  unfold Z.div.
  destruct (Z.div_eucl (Zpos m1 * 2 ^ 53) (Zpos m2)) as [q r].
  destruct Hdm as [Hq Hr]. cbn [fst].
  assert (Hqlo : 2 ^ 52 <= q) by nia.
  assert (Hqhi : q < 2 ^ 54) by nia.
  destruct q as [ | q | q ]; try lia.
  exists q. split; [ reflexivity | ].
  destruct (Z.ltb_spec (Zpos q) (2 ^ 53)) as [Hlt | Hge].
  - left. split; [ | exact Hlt ].
    apply digits2_unique. change (2 ^ (53 - 1)) with (2 ^ 52). lia.
  - right. split; [ | exact Hge ].
    apply digits2_unique. change (2 ^ (54 - 1)) with (2 ^ 53). lia.
Qed.

Lemma div_mod_eq (a : Z) (b q : positive) :
  a / Zpos b = Zpos q ->
  a = Zpos b * Zpos q + a mod Zpos b /\ 0 <= a mod Zpos b < Zpos b.
Proof.
  intros Hq. split.
  - rewrite <- Hq. apply Z.div_mod. lia.
  - apply Z.mod_pos_bound. lia.
Qed.

(** The quotient of two normal floats of moderate exponents is a normal
    float: not a zero, an infinity or a NaN. *)
Lemma div_normal (sx sy : bool) (m1 m2 : positive) (e1 e2 : Z) :
  Zpos (digits2_pos m1) = 53 -> Zpos (digits2_pos m2) = 53 ->
  -200 <= e1 <= 200 -> -200 <= e2 <= 200 ->
  exists m e,
    F64.div (S754_finite sx m1 e1) (S754_finite sy m2 e2)
    = S754_finite (xorb sx sy) m e
    /\ Zpos (digits2_pos m) = 53.
Proof.
  intros Hd1 Hd2 He1 He2.
  rewrite div_finite by lia.
  destruct (div_quotient_digits m1 m2 Hd1 Hd2) as (q & -> & Hcases).
  set (l := new_location (Zpos m2) ((Zpos m1 * 2 ^ 53) mod Zpos m2)).
  destruct Hcases as [[Hdq _] | [Hdq _]].
  - destruct (round_53 (xorb sx sy) q (e1 - e2 - 53) l Hdq)
      as (m & Hdm & Hres & _); [ lia | ].
    eexists m, _. split; [ exact Hres | exact Hdm ].
  - destruct (round_54 (xorb sx sy) q (e1 - e2 - 53) l Hdq)
      as (m & Hdm & Hres & _); [ lia | ].
    eexists m, _. split; [ exact Hres | exact Hdm ].
Qed.

(** The ratio [count / size] of a positive count and a positive size, both
    [int64]: a positive normal float. *)
Lemma div_of_int_pos (c s : Z) :
  0 < c <= max_int64 -> 0 < s <= max_int64 ->
  exists m e, F64.div (F64.of_int c) (F64.of_int s) = S754_finite false m e.
Proof.
  intros Hc Hs.
  destruct (of_int_normal c Hc) as (m1 & e1 & -> & Hd1 & He1).
  destruct (of_int_normal s Hs) as (m2 & e2 & -> & Hd2 & He2).
  destruct (div_normal false false m1 m2 e1 e2) as (m & e & Hdiv & _);
    try assumption; try lia.
  exists m, e. exact Hdiv.
Qed.

(** A normal float divided by a smaller one: the quotient is above 1, that
    is at least [1 + 2 ^ -52]. *)
Lemma quotient_above_one (ms mn : positive) (es en : Z) :
  Zpos (digits2_pos ms) = 53 -> Zpos (digits2_pos mn) = 53 ->
  -52 <= es <= 12 -> -52 <= en <= 12 ->
  en < es \/ (en = es /\ Zpos mn < Zpos ms) ->
  exists mq eq,
    F64.div (S754_finite false ms es) (S754_finite false mn en)
    = S754_finite false mq eq
    /\ Zpos (digits2_pos mq) = 53
    /\ -52 <= eq <= 13
    /\ (eq = -52 -> 2 ^ 52 + 1 <= Zpos mq).
Proof.
  intros Hds Hdn Hes Hen Hlt.
  rewrite div_finite by lia. cbn [xorb].
  destruct (digits2_bounds ms) as [Hlos Hhis].
  destruct (digits2_bounds mn) as [Hlon Hhin].
  rewrite Hds in Hlos, Hhis. rewrite Hdn in Hlon, Hhin.
  change (2 ^ (53 - 1)) with (2 ^ 52) in *.
  destruct (div_quotient_digits ms mn Hds Hdn) as (q & Hq & Hcases).
  destruct (div_mod_eq _ _ _ Hq) as [Hdiv Hr].
  rewrite Hq.
  set (r := (Zpos ms * 2 ^ 53) mod Zpos mn) in *.
  set (l := new_location (Zpos mn) r).
  destruct Hcases as [[Hdq Hq53] | [Hdq Hq53]].
  - (* 53 digits *)
    destruct (round_53 false q (es - en - 53) l Hdq) as (m & Hdm & -> & Hm);
      [ lia | ].
    pose proof (round_nearest_even_bounds (Zpos q) l) as Hrne.
    assert (Hqlo : 2 ^ 52 <= Zpos q).
    { destruct (digits2_bounds q) as [Hlo _]. rewrite Hdq in Hlo.
      exact Hlo. }
    assert (Hes_en : en < es).
    { destruct Hlt as [ | [_ Hm'] ]; [ assumption | exfalso ].
      assert (Zpos mn * Zpos q <= Zpos mn * (2 ^ 53 - 1))
        by (apply Z.mul_le_mono_nonneg_l; lia).
      lia. }
    eexists m, _. split; [ reflexivity | ]. split; [ exact Hdm | ].
    destruct (Z.ltb_spec (round_nearest_even (Zpos q) l) (2 ^ 53))
      as [Hno | Hcarry].
    + split; [ lia | ]. intros He. rewrite Hm.
      destruct (Z.eq_dec (Zpos q) (2 ^ 52)) as [Hq52 | Hq52]; [ | lia ].
      assert (Hgt : l = loc_Inexact Gt).
      { apply new_location_Gt; [ lia | ]. rewrite Hq52 in Hdiv. lia. }
      rewrite Hgt. cbn [round_nearest_even]. lia.
    + split; [ lia | ]. intros He. lia.
  - (* 54 digits *)
    destruct (round_54 false q (es - en - 53) l Hdq) as (m & Hdm & -> & Hm);
      [ lia | ].
    set (l' := loc_of_shr_record
                 {| shr_m := Zpos q / 2; shr_r := Z.odd (Zpos q);
                    shr_s := negb match l with
                                  | loc_Exact => true
                                  | loc_Inexact _ => false
                                  end |}) in *.
    pose proof (round_nearest_even_bounds (Zpos q / 2) l') as Hrne.
    eexists m, _. split; [ reflexivity | ]. split; [ exact Hdm | ].
    destruct (Z.ltb_spec (round_nearest_even (Zpos q / 2) l') (2 ^ 53))
      as [Hno | Hcarry].
    + split; [ lia | ]. intros He. rewrite Hm.
      assert (Hen_es : en = es /\ Zpos mn < Zpos ms) by lia.
      destruct Hen_es as [_ Hmm].
      assert (Hq1 : 2 ^ 53 + 1 <= Zpos q).
      { destruct (Z_le_gt_dec (2 ^ 53 + 1) (Zpos q)) as [ | Hgt ];
          [ assumption | exfalso ].
        assert (Zpos q = 2 ^ 53) by lia.
        rewrite H in Hdiv. lia. }
      destruct (Z.eq_dec (Zpos q) (2 ^ 53 + 1)) as [Hqe | Hqne].
      * assert (Hr0 : r <> 0).
        { intros Hr0. rewrite Hr0, Hqe in Hdiv. lia. }
        assert (Hl : l <> loc_Exact) by (apply new_location_inexact; exact Hr0).
        assert (Hl' : l' = loc_Inexact Gt).
        { unfold l'. rewrite Hqe.
          destruct l as [ | c ]; [ contradiction | reflexivity ]. }
        rewrite Hl', Hqe. reflexivity.
      * assert (2 ^ 52 + 1 <= Zpos q / 2); [ | lia ].
        apply Z.div_le_lower_bound; lia.
    + split; [ lia | ]. intros He. lia.
Qed.

Lemma hundred_eq : F64.hundred = S754_finite false 7036874417766400 (-46).
Proof. reflexivity. Qed.

(** 100 divided by a float above 1 is below 100. *)
Lemma hundred_over (mq : positive) (eq : Z) :
  Zpos (digits2_pos mq) = 53 ->
  -52 <= eq <= 13 ->
  (eq = -52 -> 2 ^ 52 + 1 <= Zpos mq) ->
  exists mp ep,
    F64.div F64.hundred (S754_finite false mq eq) = S754_finite false mp ep
    /\ (ep < -46 \/ (ep = -46 /\ Zpos mp < 7036874417766400)).
Proof.
  intros Hdq Heq Hone.
  rewrite hundred_eq, div_finite by (try reflexivity; lia). cbn [xorb].
  destruct (digits2_bounds mq) as [Hlo Hhi]. rewrite Hdq in Hlo, Hhi.
  change (2 ^ (53 - 1)) with (2 ^ 52) in *.
  destruct (div_quotient_digits 7036874417766400 mq eq_refl Hdq)
    as (q & Hq & Hcases).
  destruct (div_mod_eq _ _ _ Hq) as [Hdiv Hr].
  rewrite Hq.
  set (r := (7036874417766400 * 2 ^ 53) mod Zpos mq) in *.
  set (l := new_location (Zpos mq) r).
  destruct Hcases as [[Hd Hq53] | [Hd Hq53]].
  - destruct (round_53 false q (-46 - eq - 53) l Hd) as (m & Hdm & -> & Hm);
      [ lia | ].
    eexists m, _. split; [ reflexivity | ].
    destruct (Z.ltb_spec (round_nearest_even (Zpos q) l) (2 ^ 53))
      as [Hno | Hcarry]; lia.
  - destruct (round_54 false q (-46 - eq - 53) l Hd) as (m & Hdm & -> & Hm);
      [ lia | ].
    set (l' := loc_of_shr_record
                 {| shr_m := Zpos q / 2; shr_r := Z.odd (Zpos q);
                    shr_s := negb match l with
                                  | loc_Exact => true
                                  | loc_Inexact _ => false
                                  end |}) in *.
    pose proof (round_nearest_even_bounds (Zpos q / 2) l') as Hrne.
    eexists m, _. split; [ reflexivity | ].
    destruct (Z.eq_dec eq (-52)) as [He | He].
    + specialize (Hone He).
      assert (Hmul : (2 ^ 52 + 1) * Zpos q <= Zpos mq * Zpos q)
        by (apply Z.mul_le_mono_nonneg_r; lia).
      assert (Hqhi : Zpos q <= 2 * 7036874417766400 - 4) by lia.
      assert (Hhalf : Zpos q / 2 <= 7036874417766400 - 2).
      { apply Z.div_le_upper_bound; lia. }
      destruct (Z.ltb_spec (round_nearest_even (Zpos q / 2) l') (2 ^ 53))
        as [Hno | Hcarry]; lia.
    + destruct (Z.ltb_spec (round_nearest_even (Zpos q / 2) l') (2 ^ 53))
        as [Hno | Hcarry]; lia.
Qed.

(** ** Percent *)

(** Between a positive count and a larger size, both [int64] readings, the
    percentage is the double quotient and lies strictly between 0 and 100. *)
Lemma Percent_between (c s : Z) (t : Time.Time) :
  0 < c <= max_int64 ->
  0 < s <= max_int64 ->
  F64.ltb (F64.of_int c) (F64.of_int s) = true ->
  let p := {| n := F64.of_int c; size := F64.of_int s; estimated := t |} in
  Percent p = F64.div F64.hundred (F64.div (size p) (n p))
  /\ F64.ltb F64.zero (Percent p) = true
  /\ F64.ltb (Percent p) F64.hundred = true.
Proof.
  intros Hc Hs Hlt p. unfold Percent, p. cbn [n size].
  destruct (of_int_normal c Hc) as (mn & en & Hn & Hdn & Hen).
  destruct (of_int_normal s Hs) as (ms & es & Hsz & Hds & Hes).
  rewrite Hn, Hsz in *.
  assert (Hne : F64.eqb (S754_finite false mn en) (S754_finite false ms es)
                = false).
  { unfold F64.ltb, SFltb in Hlt. unfold F64.eqb, SFeqb.
    destruct (SFcompare (S754_finite false mn en) (S754_finite false ms es))
      as [ [ | | ] | ]; try discriminate; reflexivity. }
  rewrite Hne. cbn [F64.eqb SFeqb SFcompare F64.zero].
  split; [ reflexivity | ].
  apply ltb_finite_pos in Hlt.
  destruct (quotient_above_one ms mn es en Hds Hdn Hes Hen Hlt)
    as (mq & eq & -> & Hdq & Heq & Hone).
  destruct (hundred_over mq eq Hdq Heq Hone) as (mp & ep & -> & Hp).
  split; [ reflexivity | ].
  rewrite hundred_eq. apply ltb_finite_pos. exact Hp.
Qed.

(** C2 (amended): [Percent()] is 0 for a zero count, 100 for a count equal
    to a size that is not zero, and otherwise the quotient
    [100 / (size / count)] in [float64]. For a snapshot of [int64] readings
    with a positive count below the size, as [float64] values, that quotient
    is strictly between 0 and 100; up to [2 ^ 53] the readings compare as
    their [float64] values do. *)
Theorem Percent_cases (p : Progress) :
  (F64.eqb (n p) F64.zero = true -> Percent p = F64.zero)
  /\ (F64.eqb (n p) F64.zero = false ->
      F64.eqb (n p) (size p) = true -> Percent p = F64.hundred)
  /\ (F64.eqb (n p) F64.zero = false ->
      F64.eqb (n p) (size p) = false ->
      Percent p = F64.div F64.hundred (F64.div (size p) (n p)))
  /\ (forall c s,
         n p = F64.of_int c -> size p = F64.of_int s ->
         0 < c <= max_int64 -> 0 < s <= max_int64 ->
         F64.ltb (n p) (size p) = true ->
         Percent p = F64.div F64.hundred (F64.div (size p) (n p))
         /\ F64.ltb F64.zero (Percent p) = true
         /\ F64.ltb (Percent p) F64.hundred = true)
  /\ (forall c s,
         n p = F64.of_int c -> size p = F64.of_int s ->
         0 < c -> c < s -> s <= 2 ^ 53 ->
         F64.ltb F64.zero (Percent p) = true
         /\ F64.ltb (Percent p) F64.hundred = true).
Proof.
  split; [ | split; [ | split; [ | split ] ] ].
  - unfold Percent. intros ->. reflexivity.
  - unfold Percent. intros -> ->. reflexivity.
  - unfold Percent. intros -> ->. reflexivity.
  - intros c s Hn Hs Hc Hsz Hlt.
    destruct p as [x y t]. cbn [n size] in *. subst x y.
    apply (Percent_between c s t); assumption.
  - intros c s Hn Hs Hc Hcs Hs53.
    destruct p as [x y t]. cbn [n size] in *. subst x y.
    apply (Percent_between c s t); unfold max_int64; try lia.
    rewrite ltb_of_int_exact by lia. apply Z.ltb_lt. exact Hcs.
Qed.

(** * The sampling loop *)

Section Run.

Variable indefinite : float64 -> Z.

(** ** One iteration *)

Lemma sample_n (sz st c now : Z) :
  n (fst (sample indefinite sz st c now)) = F64.of_int c.
Proof. unfold sample. destruct (Time.IsZero st); reflexivity. Qed.

Lemma sample_size (sz st c now : Z) :
  size (fst (sample indefinite sz st c now)) = F64.of_int sz.
Proof. unfold sample. destruct (Time.IsZero st); reflexivity. Qed.

Lemma sample_Complete (sz st c now : Z) :
  Complete (fst (sample indefinite sz st c now))
  = F64.leb (F64.of_int sz) (F64.of_int c).
Proof. unfold Complete. rewrite sample_n, sample_size. reflexivity. Qed.

Lemma sample_unset (sz st c now : Z) :
  st = Time.zero -> estimated (fst (sample indefinite sz st c now)) = Time.zero.
Proof. intros ->. reflexivity. Qed.

Lemma sample_set (sz st c now : Z) :
  st <> Time.zero ->
  estimated (fst (sample indefinite sz st c now))
  = Time.Add st
      (to_int64 indefinite
         (F64.div (F64.of_int (Time.Sub now st))
                  (F64.div (F64.of_int c) (F64.of_int sz)))).
Proof.
  intros Hst. unfold sample, Time.IsZero.
  destruct (Z.eqb_spec st 0) as [He | _]; [ contradiction | reflexivity ].
Qed.

Lemma sample_started (sz st c now : Z) :
  snd (sample indefinite sz st c now)
  = if Time.IsZero st then (if 0 <? c then now else st) else st.
Proof.
  unfold sample. destruct (Time.IsZero st); [ | reflexivity ].
  unfold Started. simpl. rewrite ltb_zero_of_int. reflexivity.
Qed.

(** ** Unfolding the loop *)

Lemma loop_timer (sz st c now : Z) (evs : list event) :
  loop indefinite sz st (TimerFired c now :: evs)
  = if Complete (fst (sample indefinite sz st c now))
    then ([fst (sample indefinite sz st c now)], Some Completed)
    else (fst (sample indefinite sz st c now)
            :: fst (loop indefinite sz (snd (sample indefinite sz st c now))
                     evs),
          snd (loop indefinite sz (snd (sample indefinite sz st c now)) evs)).
Proof.
  simpl. destruct (sample indefinite sz st c now) as [p st']. simpl.
  destruct (Complete p); [ reflexivity | ].
  destruct (loop indefinite sz st' evs). reflexivity.
Qed.

(** The [i]-th snapshot sent is the one of iteration [i], which observed the
    timer. *)
Lemma loop_nth (sz : Z) (evs : list event) :
  forall (st : Z) (i : nat) (p : Progress),
    nth_error (fst (loop indefinite sz st evs)) i = Some p ->
    exists c now,
      nth_error evs i = Some (TimerFired c now)
      /\ p = fst (sample indefinite sz (started_before indefinite sz st evs i)
                    c now).
Proof.
  induction evs as [ | [ | c now ] evs IH ]; intros st i p Hp.
  - destruct i; discriminate.
  - destruct i; discriminate.
  - rewrite loop_timer in Hp.
    destruct (Complete (fst (sample indefinite sz st c now))).
    + destruct i as [ | [ | i ] ]; try discriminate.
      injection Hp as <-. exists c, now. split; reflexivity.
    + destruct i as [ | i ].
      * injection Hp as <-. exists c, now. split; reflexivity.
      * simpl in Hp. apply IH in Hp. exact Hp.
Qed.

(** While the goroutine is still running every iteration has sent one
    snapshot. *)
Lemma loop_running_length (sz : Z) (evs : list event) :
  forall st : Z,
    snd (loop indefinite sz st evs) = None ->
    length (fst (loop indefinite sz st evs)) = length evs.
Proof.
  induction evs as [ | [ | c now ] evs IH ]; intros st Hrun.
  - reflexivity.
  - discriminate.
  - rewrite loop_timer in *.
    destruct (Complete (fst (sample indefinite sz st c now)));
      [ discriminate | ].
    simpl in *. f_equal. apply IH. exact Hrun.
Qed.

Lemma loop_cancel (sz : Z) (pre post : list event) :
  forall st : Z,
    snd (loop indefinite sz st pre) = None ->
    loop indefinite sz st (pre ++ CtxDone :: post)
    = (fst (loop indefinite sz st pre), Some Cancelled).
Proof.
  induction pre as [ | [ | c now ] pre IH ]; intros st Hrun.
  - reflexivity.
  - discriminate.
  - rewrite <- app_comm_cons, loop_timer. rewrite loop_timer in Hrun.
    rewrite loop_timer.
    destruct (Complete (fst (sample indefinite sz st c now)));
      [ discriminate | ].
    simpl in Hrun. rewrite (IH _ Hrun). reflexivity.
Qed.

(** Every snapshot but the one that ends the loop is incomplete. *)
Lemma loop_shape (sz : Z) (evs : list event) :
  forall st : Z,
    match snd (loop indefinite sz st evs) with
    | Some Completed =>
        exists pre p,
          fst (loop indefinite sz st evs) = pre ++ [p]
          /\ Complete p = true
          /\ Forall (fun q => Complete q = false) pre
    | _ =>
        Forall (fun q => Complete q = false) (fst (loop indefinite sz st evs))
    end.
Proof.
  induction evs as [ | [ | c now ] evs IH ]; intros st.
  - constructor.
  - constructor.
  - rewrite loop_timer.
    destruct (Complete (fst (sample indefinite sz st c now))) eqn:Hc.
    + exists [], (fst (sample indefinite sz st c now)). simpl.
      repeat split; [ exact Hc | constructor ].
    + specialize (IH (snd (sample indefinite sz st c now))). simpl.
      destruct (snd (loop indefinite sz (snd (sample indefinite sz st c now))
                       evs)) as [ [ | ] | ].
      * destruct IH as (pre & p & Hout & Hp & Hpre).
        exists (fst (sample indefinite sz st c now) :: pre), p.
        rewrite Hout. repeat split; [ exact Hp | ].
        constructor; assumption.
      * constructor; assumption.
      * constructor; assumption.
Qed.

Lemma Forall_incomplete_app (pre post : list Progress) (p : Progress) :
  Forall (fun q => Complete q = false) (pre ++ p :: post) ->
  Complete p = false.
Proof.
  intros H. rewrite Forall_forall in H. apply H.
  apply in_or_app. right. left. reflexivity.
Qed.

(** ** Completion and cancellation *)

(** A reading that reaches the size makes the snapshot complete; up to
    [2 ^ 53], where the conversions are exact, only such a reading does. *)
Lemma sample_Complete_reading (sz st c now : Z) :
  min_int64 <= sz -> c <= max_int64 ->
  (sz <= c -> Complete (fst (sample indefinite sz st c now)) = true)
  /\ (Z.abs sz <= 2 ^ 53 -> Z.abs c <= 2 ^ 53 ->
      Complete (fst (sample indefinite sz st c now)) = true -> sz <= c).
Proof.
  intros Hsz Hc. rewrite sample_Complete. split.
  - intros Hle. apply of_int_mono; assumption.
  - intros Hs53 Hc53. rewrite leb_of_int_exact by assumption.
    apply Z.leb_le.
Qed.

(** A reading that reaches the size ends the loop: the iterations before it
    have sent their snapshots, and the first complete one is the last. *)
Lemma loop_completes (sz : Z) (evs : list event) :
  forall (i : nat) (c t st : Z),
    (forall k, (k < i)%nat ->
               exists ck tk, nth_error evs k = Some (TimerFired ck tk)) ->
    nth_error evs i = Some (TimerFired c t) ->
    min_int64 <= sz -> sz <= c -> c <= max_int64 ->
    snd (loop indefinite sz st evs) = Some Completed
    /\ (0 < length (fst (loop indefinite sz st evs)) <= S i)%nat
    /\ ((forall k ck tk,
            (k < i)%nat -> nth_error evs k = Some (TimerFired ck tk) ->
            Z.abs ck <= 2 ^ 53 /\ ck < sz) ->
        Z.abs sz <= 2 ^ 53 ->
        length (fst (loop indefinite sz st evs)) = S i).
Proof.
  induction evs as [ | [ | c0 t0 ] evs IH ];
    intros i c t st Hticks Hi Hlo Hle Hhi.
  - destruct i; discriminate.
  - destruct i as [ | i ]; [ discriminate | ].
    destruct (Hticks 0%nat) as (ck & tk & H0); [ lia | discriminate ].
  - rewrite loop_timer.
    destruct (Complete (fst (sample indefinite sz st c0 t0))) eqn:Hc.
    + cbn [snd fst length]. split; [ reflexivity | ]. split; [ lia | ].
      intros Hbefore Hsz.
      destruct i as [ | i ]; [ reflexivity | exfalso ].
      destruct (Hbefore 0%nat c0 t0) as [H53 Hlt]; [ lia | reflexivity | ].
      rewrite sample_Complete, leb_of_int_exact in Hc by assumption.
      apply Z.leb_le in Hc. lia.
    + destruct i as [ | i ].
      * injection Hi as -> ->.
        rewrite (proj1 (sample_Complete_reading sz st c t Hlo Hhi))
          in Hc by exact Hle.
        discriminate.
      * cbn [snd fst length].
        destruct (IH i c t (snd (sample indefinite sz st c0 t0)))
          as (Hr & Hlen & Hex); try assumption.
        { intros k Hk. apply (Hticks (S k)). lia. }
        split; [ exact Hr | ]. split; [ lia | ].
        intros Hbefore Hsz. f_equal. apply Hex; [ | exact Hsz ].
        intros k ck tk Hk Hev. apply (Hbefore (S k) ck tk); [ lia | exact Hev ].
Qed.

(** On a snapshot of [int64] readings whose values in [float64] are [int64]
    too, [Complete()] compares what [Size()] and [N()] return. *)
Lemma sample_Complete_accessors (sz st c now : Z) :
  in_int64 sz = true -> in_int64 c = true ->
  in_int64 (nearest_int sz) = true -> in_int64 (nearest_int c) = true ->
  Complete (fst (sample indefinite sz st c now))
  = (Size indefinite (fst (sample indefinite sz st c now))
     <=? N indefinite (fst (sample indefinite sz st c now))).
Proof.
  intros Hsz Hc Hnsz Hnc.
  assert (Habs : forall z, in_int64 z = true -> Z.abs z < 2 ^ 64).
  { intros z Hz. unfold in_int64, min_int64, max_int64 in Hz.
    apply andb_prop in Hz. destruct Hz as [H1 H2].
    apply Z.leb_le in H1, H2. lia. }
  unfold Size, N. rewrite sample_Complete, sample_n, sample_size.
  rewrite !to_int64_of_int_nearest by auto.
  unfold F64.leb, SFleb. rewrite compare_of_int by auto.
  unfold Z.leb. destruct (nearest_int sz ?= nearest_int c); reflexivity.
Qed.

(** C3: a snapshot sent on the channel is complete exactly when it is the
    last one and the goroutine returned because of it, closing the channel;
    the snapshots before it are incomplete, and a goroutine that returned on
    completion has sent that snapshot. A snapshot is complete as soon as the
    reading it was taken from reaches the size, and exactly when its [N()]
    has reached its [Size()]. When an iteration reads a count that has
    reached the size, the iterations before it observing the timer, the
    snapshots up to the first complete one have been sent and the goroutine
    has returned on completion. *)
Theorem complete_closes_channel (sz : Z) (evs : list event)
        (out : list Progress) (r : option exit) :
  NewTicker indefinite sz evs = (out, r) ->
  (forall pre p post,
      out = pre ++ p :: post ->
      (Complete p = true <-> post = [] /\ r = Some Completed))
  /\ (r = Some Completed -> exists pre p, out = pre ++ [p])
  /\ (forall i p,
         nth_error out i = Some p ->
         exists c t,
           nth_error evs i = Some (TimerFired c t)
           /\ (min_int64 <= sz -> sz <= c -> c <= max_int64 ->
               Complete p = true)
           /\ (Z.abs sz <= 2 ^ 53 -> Z.abs c <= 2 ^ 53 ->
               Complete p = true -> sz <= c)
           /\ (in_int64 sz = true -> in_int64 c = true ->
               in_int64 (nearest_int sz) = true ->
               in_int64 (nearest_int c) = true ->
               Complete p = (Size indefinite p <=? N indefinite p)))
  /\ (forall i c t,
         (forall k, (k < i)%nat ->
                    exists ck tk, nth_error evs k = Some (TimerFired ck tk)) ->
         nth_error evs i = Some (TimerFired c t) ->
         min_int64 <= sz -> sz <= c -> c <= max_int64 ->
         r = Some Completed
         /\ (0 < length out <= S i)%nat
         /\ (exists pre p, out = pre ++ [p] /\ Complete p = true)
         /\ ((forall k ck tk,
                 (k < i)%nat -> nth_error evs k = Some (TimerFired ck tk) ->
                 Z.abs ck <= 2 ^ 53 /\ ck < sz) ->
             Z.abs sz <= 2 ^ 53 ->
             length out = S i)).
Proof.
  unfold NewTicker. intros Hrun.
  pose proof (loop_shape sz evs Time.zero) as Hs.
  rewrite Hrun in Hs. simpl in Hs.
  split; [ | split; [ | split ] ].
  - intros pre p post ->.
    destruct r as [ [ | ] | ].
    + destruct Hs as (pre' & p' & Hout & Hp' & Hpre').
      destruct post as [ | q post ].
      * apply app_inj_tail in Hout. destruct Hout as [_ ->].
        tauto.
      * assert (Hin : In p pre').
        { change (pre ++ p :: q :: post) with (pre ++ [p] ++ q :: post)
            in Hout.
          rewrite app_assoc in Hout.
          destruct (exists_last (l := q :: post)) as (l & a & Hl);
            [ discriminate | ].
          rewrite Hl, app_assoc in Hout.
          apply app_inj_tail in Hout. destruct Hout as [<- _].
          apply in_or_app. left. apply in_or_app. right. left. reflexivity. }
        rewrite Forall_forall in Hpre'. rewrite (Hpre' _ Hin).
        split; [ discriminate | intros [? _]; discriminate ].
    + rewrite (Forall_incomplete_app _ _ _ Hs).
      split; [ discriminate | intros [_ ?]; discriminate ].
    + rewrite (Forall_incomplete_app _ _ _ Hs).
      split; [ discriminate | intros [_ ?]; discriminate ].
  - intros ->. destruct Hs as (pre & p & Hout & _). eauto.
  - intros i p Hp.
    replace out with (fst (loop indefinite sz Time.zero evs)) in Hp
      by (rewrite Hrun; reflexivity).
    apply loop_nth in Hp. destruct Hp as (c & now & Hev & ->).
    exists c, now. split; [ exact Hev | ]. split; [ | split ].
    + intros Hlo Hle Hhi.
      apply (sample_Complete_reading sz _ c now Hlo Hhi). exact Hle.
    + intros Hs53 Hc53.
      assert (Hlo : min_int64 <= sz) by (unfold min_int64; lia).
      assert (Hhi : c <= max_int64) by (unfold max_int64; lia).
      apply (sample_Complete_reading sz _ c now Hlo Hhi); assumption.
    + apply sample_Complete_accessors.
  - intros i c t Hticks Hev Hlo Hle Hhi.
    destruct (loop_completes sz evs i c t Time.zero Hticks Hev Hlo Hle Hhi)
      as (Hr & Hlen & Hex).
    rewrite Hrun in Hr, Hlen, Hex. cbn [fst snd] in Hr, Hlen, Hex.
    subst r. destruct Hs as (pre & p & Hout & Hp & _).
    split; [ reflexivity | ]. split; [ exact Hlen | ].
    split; [ exists pre, p; split; assumption | exact Hex ].
Qed.

(** C7: when an iteration observes the cancellation while the goroutine is
    still running, the goroutine returns and closes the channel; the channel
    has carried the snapshots of the iterations before, one each, and
    nothing is sent for this iteration or after it. *)
Theorem cancel_closes_channel (sz : Z) (pre post : list event) :
  snd (NewTicker indefinite sz pre) = None ->
  NewTicker indefinite sz (pre ++ CtxDone :: post)
  = (fst (NewTicker indefinite sz pre), Some Cancelled)
  /\ length (fst (NewTicker indefinite sz (pre ++ CtxDone :: post)))
     = length pre.
Proof.
  unfold NewTicker. intros Hrun.
  rewrite (loop_cancel sz pre post _ Hrun). simpl.
  split; [ reflexivity | apply loop_running_length; exact Hrun ].
Qed.

(** ** The fields of the snapshots *)

Lemma loop_In (sz : Z) (evs : list event) (st : Z) (p : Progress) :
  In p (fst (loop indefinite sz st evs)) ->
  exists i c now,
    nth_error evs i = Some (TimerFired c now)
    /\ p = fst (sample indefinite sz (started_before indefinite sz st evs i)
                  c now).
Proof.
  intros Hin. apply In_nth_error in Hin. destruct Hin as [i Hi].
  apply loop_nth in Hi. destruct Hi as (c & now & H1 & H2). eauto.
Qed.

(** C8 (amended): every snapshot carries the same size field, the size
    argument converted to [float64]; [Size()] gives the argument back when
    its magnitude is at most [2 ^ 53], and otherwise the argument rounded to
    53 bits, if that is an [int64]. *)
Theorem size_fixed (sz : Z) (evs : list event) (p : Progress) :
  In p (fst (NewTicker indefinite sz evs)) ->
  size p = F64.of_int sz
  /\ (Z.abs sz <= 2 ^ 53 -> Size indefinite p = sz)
  /\ (in_int64 sz = true -> in_int64 (nearest_int sz) = true ->
      Size indefinite p = nearest_int sz).
Proof.
  intros Hin. apply loop_In in Hin.
  destruct Hin as (i & c & now & _ & ->).
  unfold Size. rewrite sample_size.
  split; [ reflexivity | ].
  split; [ apply to_int64_of_int | ].
  intros Hsz. apply to_int64_of_int_nearest.
  unfold in_int64, min_int64, max_int64 in Hsz.
  apply andb_prop in Hsz. destruct Hsz as [H1 H2].
  apply Z.leb_le in H1, H2. lia.
Qed.

(** C4 (amended): the [i]-th snapshot is taken from the [i]-th reading of
    the counter. Its count field is the reading converted to [float64], and
    these fields never decrease if the counter never does. [N()] is the
    reading itself when its magnitude is at most [2 ^ 53] (so the values
    of [N()] never decrease either), and otherwise the reading rounded to
    53 bits, if that is an [int64]. *)
Theorem count_exact (sz : Z) (evs : list event) (out : list Progress)
        (r : option exit) :
  NewTicker indefinite sz evs = (out, r) ->
  (forall c t, In (TimerFired c t) evs -> min_int64 <= c <= max_int64) ->
  (forall i p,
      nth_error out i = Some p ->
      exists c t,
        nth_error evs i = Some (TimerFired c t)
        /\ n p = F64.of_int c
        /\ (Z.abs c <= 2 ^ 53 -> N indefinite p = c)
        /\ (in_int64 (nearest_int c) = true ->
            N indefinite p = nearest_int c))
  /\ (monotone evs ->
      forall i j p q,
        (i <= j)%nat ->
        nth_error out i = Some p ->
        nth_error out j = Some q ->
        F64.leb (n p) (n q) = true
        /\ ((forall c t, In (TimerFired c t) evs -> Z.abs c <= 2 ^ 53) ->
            N indefinite p <= N indefinite q)).
Proof.
  unfold NewTicker. intros Hrun Hrange.
  assert (Hreading : forall i p,
             nth_error out i = Some p ->
             exists c t,
               nth_error evs i = Some (TimerFired c t)
               /\ n p = F64.of_int c
               /\ (Z.abs c <= 2 ^ 53 -> N indefinite p = c)
               /\ (in_int64 (nearest_int c) = true ->
                   N indefinite p = nearest_int c)).
  { intros i p Hp.
    replace out with (fst (loop indefinite sz Time.zero evs)) in Hp
      by (rewrite Hrun; reflexivity).
    apply loop_nth in Hp. destruct Hp as (c & now & Hev & ->).
    exists c, now. unfold N. rewrite sample_n.
    split; [ exact Hev | ]. split; [ reflexivity | ].
    split; [ apply to_int64_of_int | ].
    apply to_int64_of_int_nearest.
    pose proof (Hrange c now (nth_error_In _ _ Hev)) as Hc.
    unfold min_int64, max_int64 in Hc. lia. }
  split; [ exact Hreading | ].
  intros Hmono i j p q Hij Hp Hq.
  destruct (Hreading _ _ Hp) as (ci & ti & Hi & Hni & Hexi & _).
  destruct (Hreading _ _ Hq) as (cj & tj & Hj & Hnj & Hexj & _).
  pose proof (Hmono _ _ _ _ _ _ Hij Hi Hj) as Hle.
  pose proof (Hrange ci ti (nth_error_In _ _ Hi)) as Hci.
  pose proof (Hrange cj tj (nth_error_In _ _ Hj)) as Hcj.
  split.
  - rewrite Hni, Hnj. apply of_int_mono; lia.
  - intros Hsmall.
    rewrite Hexi by (apply (Hsmall ci ti); eapply nth_error_In; exact Hi).
    rewrite Hexj by (apply (Hsmall cj tj); eapply nth_error_In; exact Hj).
    exact Hle.
Qed.

(** ** A zero size *)

Lemma loop_zero_size_unset (evs : list event) (p : Progress) :
  In p (fst (loop indefinite 0 Time.zero evs)) -> estimated p = Time.zero.
Proof.
  induction evs as [ | [ | c now ] evs IH ]; intros Hin.
  - contradiction.
  - contradiction.
  - rewrite loop_timer in Hin. rewrite sample_Complete in Hin.
    change (F64.of_int 0) with F64.zero in Hin.
    rewrite leb_zero_of_int in Hin.
    destruct (0 <=? c) eqn:Hc.
    + destruct Hin as [<- | []]. reflexivity.
    + destruct Hin as [<- | Hin]; [ reflexivity | ].
      rewrite sample_started in Hin. simpl Time.IsZero in Hin. cbv iota in Hin.
      apply Z.leb_gt in Hc.
      replace (0 <? c) with false in Hin by (symmetry; apply Z.ltb_ge; lia).
      apply IH. exact Hin.
Qed.

(** C6 (amended): in a run with size 0 the estimate is never computed:
    every snapshot has its estimated completion unset, and the division by
    the size shows in [Percent()] only, which is the positive infinity for a
    started snapshot. *)
Theorem zero_size_no_estimate (evs : list event) (p : Progress) :
  In p (fst (NewTicker indefinite 0 evs)) ->
  estimated p = Time.zero
  /\ (Started p = true -> Percent p = S754_infinity false).
Proof.
  intros Hin. split.
  - apply loop_zero_size_unset with (evs := evs). exact Hin.
  - apply loop_In in Hin. destruct Hin as (i & c & now & _ & ->).
    unfold Started, Percent. rewrite sample_n, sample_size.
    rewrite ltb_zero_of_int. intros Hc. apply Z.ltb_lt in Hc.
    change (F64.of_int 0) with F64.zero.
    destruct (of_int_pos c Hc) as [(m & e & ->) | ->]; reflexivity.
Qed.

(** C10: a snapshot whose count and size are both zero is complete, not
    started, and at 0 percent; a run with size 0 whose first tick reads 0
    sends that one snapshot, without an estimate, and closes the channel. *)
Theorem zero_of_zero (p : Progress) :
  F64.eqb (n p) F64.zero = true ->
  F64.eqb (size p) F64.zero = true ->
  (Complete p = true /\ Started p = false /\ Percent p = F64.zero)
  /\ forall t evs,
      NewTicker indefinite 0 (TimerFired 0 t :: evs)
      = ([ {| n := F64.zero; size := F64.zero; estimated := Time.zero |} ],
         Some Completed).
Proof.
  intros Hn Hs. split.
  - destruct p as [x y est]. unfold Complete, Started, Percent. simpl in *.
    rewrite Hn.
    destruct x as [ sx | [ | ] | | [ | ] mx ex ]; try discriminate.
    destruct y as [ sy | [ | ] | | [ | ] my ey ]; try discriminate.
    repeat split.
  - intros t evs. reflexivity.
Qed.

(** ** The anchor of the estimate *)

Lemma started_before_set (sz : Z) (evs : list event) :
  forall (st : Z) (i : nat),
    st <> Time.zero -> started_before indefinite sz st evs i = st.
Proof.
  induction evs as [ | [ | c now ] evs IH ]; intros st i Hst;
    destruct i as [ | i ]; try reflexivity.
  cbn [started_before]. rewrite sample_started. unfold Time.IsZero.
  destruct (Z.eqb_spec st 0) as [ | _ ]; [ contradiction | ].
  apply IH. exact Hst.
Qed.

Lemma started_before_unset (sz : Z) (evs : list event) :
  forall i : nat,
    (forall k c t,
        (k < i)%nat -> nth_error evs k = Some (TimerFired c t) -> c <= 0) ->
    started_before indefinite sz Time.zero evs i = Time.zero.
Proof.
  induction evs as [ | [ | c now ] evs IH ]; intros i Hidle;
    destruct i as [ | i ]; try reflexivity.
  cbn [started_before]. rewrite sample_started. simpl Time.IsZero. cbv iota.
  assert (Hc : c <= 0) by (apply (Hidle 0%nat c now); [ lia | reflexivity ]).
  replace (0 <? c) with false by (symmetry; apply Z.ltb_ge; lia).
  apply IH. intros k c' t Hk Hev.
  apply (Hidle (S k) c' t); [ lia | exact Hev ].
Qed.

Lemma started_before_activity (sz : Z) (evs : list event) :
  forall i : nat,
    started_before indefinite sz Time.zero evs i <> Time.zero ->
    exists j c t,
      (j < i)%nat /\ nth_error evs j = Some (TimerFired c t) /\ 0 < c.
Proof.
  induction evs as [ | [ | c now ] evs IH ]; intros i Hset;
    destruct i as [ | i ]; try (simpl in Hset; congruence).
  destruct (Z.ltb_spec 0 c) as [Hc | Hc].
  - exists 0%nat, c, now. repeat split; [ lia | exact Hc ].
  - cbn [started_before] in Hset. rewrite sample_started in Hset.
    simpl Time.IsZero in Hset. cbv iota in Hset.
    replace (0 <? c) with false in Hset by (symmetry; apply Z.ltb_ge; lia).
    destruct (IH i Hset) as (j & c' & t & Hj & Hev & Hc').
    exists (S j), c', t. repeat split; [ lia | exact Hev | exact Hc' ].
Qed.

Lemma started_before_anchor (sz : Z) (evs : list event) :
  forall (i j : nat) (tj : Z),
    first_activity evs j tj ->
    (forall k,
        (k < j)%nat -> exists c t, nth_error evs k = Some (TimerFired c t)) ->
    (j < i)%nat ->
    tj <> Time.zero ->
    started_before indefinite sz Time.zero evs i = tj.
Proof.
  induction evs as [ | [ | c now ] evs IH ];
    intros i j tj [(cj & Hj & Hcj) Hidle] Hticks Hji Htj.
  - destruct j; discriminate.
  - destruct j as [ | j ]; [ discriminate | ].
    destruct (Hticks 0%nat) as (c & t & H0); [ lia | discriminate ].
  - destruct i as [ | i ]; [ lia | ].
    cbn [started_before]. rewrite sample_started. simpl Time.IsZero. cbv iota.
    destruct j as [ | j ].
    + injection Hj as -> ->.
      replace (0 <? cj) with true by (symmetry; apply Z.ltb_lt; lia).
      apply started_before_set. exact Htj.
    + assert (Hc : c <= 0)
        by (apply (Hidle 0%nat c now); [ lia | reflexivity ]).
      replace (0 <? c) with false by (symmetry; apply Z.ltb_ge; lia).
      apply (IH i j tj); [ | | lia | exact Htj ].
      * split; [ exists cj; split; [ exact Hj | exact Hcj ] | ].
        intros k c' t Hk Hev. apply (Hidle (S k) c' t); [ lia | exact Hev ].
      * intros k Hk. apply (Hticks (S k)). lia.
Qed.

(** The iterations up to one that sent a snapshot all observed the timer. *)
Lemma loop_nth_ticks (sz st : Z) (evs : list event) (i : nat) (p : Progress) :
  nth_error (fst (loop indefinite sz st evs)) i = Some p ->
  forall k, (k <= i)%nat -> exists c t, nth_error evs k = Some (TimerFired c t).
Proof.
  intros Hp k Hk.
  assert (Hlen : (k < length (fst (loop indefinite sz st evs)))%nat).
  { assert (nth_error (fst (loop indefinite sz st evs)) i <> None)
      by congruence.
    apply nth_error_Some in H. lia. }
  apply nth_error_Some in Hlen.
  destruct (nth_error (fst (loop indefinite sz st evs)) k) as [q | ] eqn:Hq;
    [ | congruence ].
  apply loop_nth in Hq. destruct Hq as (c & t & Hev & _). eauto.
Qed.

(** C5: a snapshot with an estimated completion that is set was sent after
    a strictly earlier iteration read a positive count; the snapshot of the
    iteration that first reads a positive count has it unset. *)
Theorem estimate_only_after_activity (sz : Z) (evs : list event)
        (out : list Progress) (r : option exit) (i : nat) (p : Progress) :
  NewTicker indefinite sz evs = (out, r) ->
  nth_error out i = Some p ->
  (estimated p <> Time.zero ->
   exists j c t,
     (j < i)%nat /\ nth_error evs j = Some (TimerFired c t) /\ 0 < c)
  /\ (forall t, first_activity evs i t -> estimated p = Time.zero).
Proof.
  unfold NewTicker. intros Hrun Hp.
  replace out with (fst (loop indefinite sz Time.zero evs)) in Hp
    by (rewrite Hrun; reflexivity).
  apply loop_nth in Hp. destruct Hp as (c & now & Hev & ->).
  split.
  - intros Hest. apply (started_before_activity sz).
    intros Hst. apply Hest. apply sample_unset. exact Hst.
  - intros t [_ Hidle]. apply sample_unset.
    apply started_before_unset. exact Hidle.
Qed.

(** C1 (amended): when iteration [j] is the first to read a positive count,
    at time [tj] (not the zero time), the snapshot of every later iteration
    [i] has as estimated completion [tj] plus the integer part of
    [(now - tj) / (count / size)], computed in [float64] from the count and
    the time read by iteration [i], when that integer part is an [int64];
    when the quotient has no integer part or it is not an [int64], the
    estimated completion is [tj] plus what the platform makes of the
    conversion. *)
Theorem estimate_extrapolates (sz : Z) (evs : list event)
        (out : list Progress) (r : option exit) (i j : nat) (tj : Time.Time)
        (p : Progress) :
  NewTicker indefinite sz evs = (out, r) ->
  nth_error out i = Some p ->
  first_activity evs j tj ->
  (j < i)%nat ->
  tj <> Time.zero ->
  exists c now,
    nth_error evs i = Some (TimerFired c now)
    /\ (forall z,
           F64.trunc (F64.div (F64.of_int (Time.Sub now tj))
                              (F64.div (F64.of_int c) (F64.of_int sz)))
           = Some z ->
           in_int64 z = true ->
           estimated p = Time.Add tj z)
    /\ (F64.trunc (F64.div (F64.of_int (Time.Sub now tj))
                           (F64.div (F64.of_int c) (F64.of_int sz))) = None
        \/ (exists z,
               F64.trunc (F64.div (F64.of_int (Time.Sub now tj))
                                  (F64.div (F64.of_int c) (F64.of_int sz)))
               = Some z
               /\ in_int64 z = false) ->
        estimated p
        = Time.Add tj
            (indefinite (F64.div (F64.of_int (Time.Sub now tj))
                                 (F64.div (F64.of_int c) (F64.of_int sz))))).
Proof.
  unfold NewTicker. intros Hrun Hp Hfirst Hji Htj.
  replace out with (fst (loop indefinite sz Time.zero evs)) in Hp
    by (rewrite Hrun; reflexivity).
  pose proof (loop_nth_ticks _ _ _ _ _ Hp) as Hticks.
  apply loop_nth in Hp. destruct Hp as (c & now & Hev & ->).
  exists c, now. split; [ exact Hev | ].
  rewrite (started_before_anchor sz evs i j tj Hfirst); try assumption;
    [ | intros k Hk; apply Hticks; lia ].
  rewrite sample_set by exact Htj. unfold to_int64.
  split.
  - intros z Hz Hin. rewrite Hz, Hin. reflexivity.
  - intros [Hnone | (z & Hz & Hout)].
    + rewrite Hnone. reflexivity.
    + rewrite Hz, Hout. reflexivity.
Qed.

(** ** The division by the ratio *)

(** C9: with a positive size and a counter that never decreases, an
    iteration that finds [started] set reads a positive count, and the ratio
    it divides by is a positive normal float: not a zero (nor an infinity
    or a NaN). *)
Theorem ratio_nonzero (sz : Z) (evs : list event) (out : list Progress)
        (r : option exit) (i : nat) (p : Progress) :
  0 < sz <= max_int64 ->
  monotone evs ->
  (forall c t, In (TimerFired c t) evs -> min_int64 <= c <= max_int64) ->
  NewTicker indefinite sz evs = (out, r) ->
  nth_error out i = Some p ->
  started_before indefinite sz Time.zero evs i <> Time.zero ->
  (exists c t, nth_error evs i = Some (TimerFired c t) /\ 0 < c)
  /\ Started p = true
  /\ exists m e, ratio p = S754_finite false m e.
Proof.
  unfold NewTicker. intros Hsz Hmono Hrange Hrun Hp Hset.
  replace out with (fst (loop indefinite sz Time.zero evs)) in Hp
    by (rewrite Hrun; reflexivity).
  apply loop_nth in Hp. destruct Hp as (c & now & Hev & ->).
  apply started_before_activity in Hset.
  destruct Hset as (j & cj & tj & Hji & Hevj & Hcj).
  assert (Hc : 0 < c).
  { assert (cj <= c); [ | lia ].
    apply (Hmono j i cj tj c now); [ lia | exact Hevj | exact Hev ]. }
  assert (Hmax : c <= max_int64).
  { apply (Hrange c now). eapply nth_error_In. exact Hev. }
  split; [ exists c, now; split; assumption | ].
  split.
  - unfold Started. rewrite sample_n, ltb_zero_of_int. apply Z.ltb_lt. exact Hc.
  - unfold ratio. rewrite sample_n, sample_size.
    apply div_of_int_pos; lia.
Qed.

End Run.

(** * More on the loop *)

Section RunMore.

Variable indefinite : float64 -> Z.

(** ** Longer runs *)

(** X1: the run on a longer sequence of events continues the run on its
    beginning. If the goroutine has returned, the events that follow change
    nothing; otherwise the snapshots sent so far are followed by those of a
    loop entered with the value of [started] reached. *)
Theorem run_extends (sz : Z) (pre post : list event) :
  NewTicker indefinite sz (pre ++ post)
  = match snd (NewTicker indefinite sz pre) with
    | Some _ => NewTicker indefinite sz pre
    | None =>
        let st := started_before indefinite sz Time.zero pre (length pre) in
        (fst (NewTicker indefinite sz pre) ++ fst (loop indefinite sz st post),
         snd (loop indefinite sz st post))
    end.
Proof.
  unfold NewTicker. cbv zeta. generalize Time.zero.
  induction pre as [ | [ | c now ] pre IH ]; intros st.
  - cbn [app loop snd fst length started_before].
    destruct (loop indefinite sz st post). reflexivity.
  - reflexivity.
  - rewrite <- app_comm_cons. rewrite !loop_timer.
    destruct (Complete (fst (sample indefinite sz st c now))).
    + reflexivity.
    + cbn [snd fst length started_before].
      rewrite IH.
      destruct (loop indefinite sz (snd (sample indefinite sz st c now)) pre)
        as [l [e | ]]; reflexivity.
Qed.

(** ** Reaching the size *)

(** X2: when the iterations up to [i] all observe the timer and iteration
    [i] reads a count that has reached the size, the goroutine returns on
    completion after at most [i + 1] snapshots; after exactly [i + 1] when
    the earlier readings are below the size, all up to [2 ^ 53]. *)
Theorem reaching_size_completes (sz : Z) (evs : list event) (i : nat)
        (c t : Z) :
  (forall k, (k < i)%nat ->
             exists ck tk, nth_error evs k = Some (TimerFired ck tk)) ->
  nth_error evs i = Some (TimerFired c t) ->
  min_int64 <= sz -> sz <= c -> c <= max_int64 ->
  snd (NewTicker indefinite sz evs) = Some Completed
  /\ (length (fst (NewTicker indefinite sz evs)) <= S i)%nat
  /\ ((forall k ck tk,
          (k < i)%nat -> nth_error evs k = Some (TimerFired ck tk) ->
          Z.abs ck <= 2 ^ 53 /\ ck < sz) ->
      Z.abs sz <= 2 ^ 53 ->
      length (fst (NewTicker indefinite sz evs)) = S i).
Proof.
  unfold NewTicker. generalize Time.zero. revert i c t.
  induction evs as [ | [ | c0 t0 ] evs IH ];
    intros i c t st Hticks Hi Hlo Hle Hhi.
  - destruct i; discriminate.
  - destruct i as [ | i ]; [ discriminate | ].
    destruct (Hticks 0%nat) as (ck & tk & H0); [ lia | discriminate ].
  - rewrite loop_timer.
    destruct (Complete (fst (sample indefinite sz st c0 t0))) eqn:Hc.
    + cbn [snd fst length]. split; [ reflexivity | ]. split; [ lia | ].
      intros Hbefore Hsz.
      destruct i as [ | i ]; [ reflexivity | exfalso ].
      destruct (Hbefore 0%nat c0 t0) as [H53 Hlt]; [ lia | reflexivity | ].
      rewrite sample_Complete, leb_of_int_exact in Hc by assumption.
      apply Z.leb_le in Hc. lia.
    + destruct i as [ | i ].
      * injection Hi as -> ->.
        rewrite (proj1 (sample_Complete_reading indefinite sz st c t Hlo Hhi))
          in Hc by exact Hle.
        discriminate.
      * cbn [snd fst length].
        destruct (IH i c t (snd (sample indefinite sz st c0 t0)))
          as (Hr & Hlen & Hex); try assumption.
        { intros k Hk. apply (Hticks (S k)). lia. }
        split; [ exact Hr | ]. split; [ lia | ].
        intros Hbefore Hsz. f_equal. apply Hex; [ | exact Hsz ].
        intros k ck tk Hk Hev. apply (Hbefore (S k) ck tk); [ lia | exact Hev ].
Qed.

(** ** Started *)

(** X3: [Started()] on a snapshot tells whether the reading it was taken
    from was positive, for every integer reading: the conversion to
    [float64] keeps the sign. *)
Theorem Started_reading (sz : Z) (evs : list event) (i : nat) (p : Progress) :
  nth_error (fst (NewTicker indefinite sz evs)) i = Some p ->
  exists c t,
    nth_error evs i = Some (TimerFired c t) /\ Started p = (0 <? c).
Proof.
  unfold NewTicker. intros Hp.
  apply loop_nth in Hp. destruct Hp as (c & now & Hev & ->).
  exists c, now. split; [ exact Hev | ].
  unfold Started. rewrite sample_n. apply ltb_zero_of_int.
Qed.

(** X4: with a positive size a complete snapshot is a started one, for any
    two [float64] fields (a NaN count is neither). *)
Theorem Complete_Started (p : Progress) :
  F64.ltb F64.zero (size p) = true ->
  Complete p = true ->
  Started p = true.
Proof.
  destruct p as [x y t]. unfold Complete, Started. cbn [n size].
  destruct y as [ sy | [ | ] | | [ | ] my ey ]; try discriminate;
    destruct x as [ sx | [ | ] | | [ | ] mx ex ]; intros _ H;
    try discriminate; reflexivity.
Qed.

(** ** A counter that never moves *)



(** ** A counter that falls back to zero *)

(** X6: when [started] is set and a later iteration reads a count of 0
    against a size that is not 0, the ratio is a zero and [past / ratio] an
    infinity or a NaN: it has no integer part, and the estimated completion
    is [started] plus whatever the platform makes of the conversion. *)
Theorem estimate_zero_count (sz : Z) (evs : list event) (i j : nat)
        (tj now : Time.Time) (p : Progress) :
  nth_error (fst (NewTicker indefinite sz evs)) i = Some p ->
  first_activity evs j tj ->
  (j < i)%nat ->
  tj <> Time.zero ->
  nth_error evs i = Some (TimerFired 0 now) ->
  sz <> 0 ->
  let q := F64.div (F64.of_int (Time.Sub now tj)) (ratio p) in
  F64.eqb (ratio p) F64.zero = true
  /\ F64.trunc q = None
  /\ estimated p = Time.Add tj (indefinite q).
Proof.
  intros Hp Hfirst Hji Htj Hev Hsz. intros q. unfold NewTicker in Hp.
  pose proof (loop_nth_ticks _ _ _ _ _ _ Hp) as Hticks.
  apply loop_nth in Hp. destruct Hp as (c & now' & Hev' & Hpeq).
  rewrite Hev in Hev'. injection Hev' as <- <-.
  rewrite (started_before_anchor indefinite sz evs i j tj Hfirst) in Hpeq;
    try assumption; [ | intros k Hk; apply Hticks; lia ].
  assert (Hratio : exists s, ratio p = S754_zero s).
  { unfold ratio. rewrite Hpeq, sample_n, sample_size.
    change (F64.of_int 0) with (S754_zero false).
    destruct (Z.lt_trichotomy sz 0) as [Hneg | [H0 | Hpos]];
      [ | contradiction | ].
    - destruct (of_int_neg sz Hneg) as [(m & e & ->) | ->]; eexists;
        reflexivity.
    - destruct (of_int_pos sz Hpos) as [(m & e & ->) | ->]; eexists;
        reflexivity. }
  destruct Hratio as [s Hratio].
  assert (Hq : F64.trunc q = None).
  { unfold q. rewrite Hratio.
    destruct (Z.lt_trichotomy (Time.Sub now tj) 0) as [Hneg | [H0 | Hpos]].
    - destruct (of_int_neg _ Hneg) as [(m & e & ->) | ->]; reflexivity.
    - rewrite H0. reflexivity.
    - destruct (of_int_pos _ Hpos) as [(m & e & ->) | ->]; reflexivity. }
  split; [ rewrite Hratio; reflexivity | ].
  split; [ exact Hq | ].
  rewrite Hpeq at 1. rewrite sample_set by exact Htj.
  unfold to_int64.
  replace (F64.div (F64.of_int (Time.Sub now tj))
             (F64.div (F64.of_int 0) (F64.of_int sz))) with q.
  - rewrite Hq. reflexivity.
  - unfold q, ratio. rewrite Hpeq, sample_n, sample_size. reflexivity.
Qed.

(** ** One snapshot for each tick *)

Lemma loop_length (sz : Z) (evs : list event) :
  forall st : Z,
    (length (fst (loop indefinite sz st evs)) <= length evs)%nat.
Proof.
  induction evs as [ | [ | c now ] evs IH ]; intros st.
  - cbn. lia.
  - cbn. lia.
  - rewrite loop_timer.
    destruct (Complete (fst (sample indefinite sz st c now))).
    + cbn. lia.
    + cbn [fst length].
      specialize (IH (snd (sample indefinite sz st c now))). lia.
Qed.

Lemma loop_running_ticks (sz : Z) (evs : list event) :
  forall st : Z,
    snd (loop indefinite sz st evs) = None -> ~ In CtxDone evs.
Proof.
  induction evs as [ | [ | c now ] evs IH ]; intros st Hrun Hin.
  - contradiction.
  - discriminate.
  - rewrite loop_timer in Hrun.
    destruct (Complete (fst (sample indefinite sz st c now)));
      [ discriminate | ].
    destruct Hin as [Hin | Hin]; [ discriminate | ].
    exact (IH _ Hrun Hin).
Qed.

(** X7: the channel never carries more snapshots than there were
    iterations; while the goroutine is running it has carried exactly one
    for each, none of them complete, and no iteration has observed the
    cancellation. *)
Theorem snapshots_per_tick (sz : Z) (evs : list event) :
  (length (fst (NewTicker indefinite sz evs)) <= length evs)%nat
  /\ (snd (NewTicker indefinite sz evs) = None ->
      length (fst (NewTicker indefinite sz evs)) = length evs
      /\ ~ In CtxDone evs
      /\ Forall (fun p => Complete p = false)
                (fst (NewTicker indefinite sz evs))).
Proof.
  unfold NewTicker. split; [ apply loop_length | ].
  intros Hrun.
  split; [ apply loop_running_length; exact Hrun | ].
  split; [ apply (loop_running_ticks sz evs _ Hrun) | ].
  pose proof (loop_shape indefinite sz evs Time.zero) as Hs.
  rewrite Hrun in Hs. exact Hs.
Qed.

End RunMore.

(** * More on the arithmetic of the snapshots *)

(** ** Quotients against 1 *)

Lemma one_eq : F64.of_int 1 = S754_finite false 4503599627370496 (-52).
Proof. reflexivity. Qed.

Lemma new_location_exact (nb : Z) : new_location nb 0 = loc_Exact.
Proof. unfold new_location. destruct (Z.even nb); reflexivity. Qed.

Lemma leb_finite_pos (m1 m2 : positive) (e1 e2 : Z) :
  F64.leb (S754_finite false m1 e1) (S754_finite false m2 e2) = true
  <-> e1 < e2 \/ (e1 = e2 /\ Zpos m1 <= Zpos m2).
Proof.
  unfold F64.leb, SFleb, SFcompare.
  destruct (Z.compare_spec e1 e2) as [He | He | He].
  - change (Pos.compare_cont Eq m1 m2) with (Pos.compare m1 m2).
    destruct (Pos.compare_spec m1 m2) as [Hm | Hm | Hm]; split;
      try discriminate; try reflexivity; try lia.
  - split; [ lia | reflexivity ].
  - split; [ discriminate | lia ].
Qed.

(** A normal float divided by itself is 1. *)
Lemma div_self (sx sy : bool) (m : positive) (e : Z) :
  Zpos (digits2_pos m) = 53 -> -500 <= e <= 500 ->
  F64.div (S754_finite sx m e) (S754_finite sy m e)
  = S754_finite (xorb sx sy) 4503599627370496 (-52).
Proof.
  intros Hd He. rewrite div_finite by lia.
  rewrite Z.mul_comm, Z.div_mul, Z.mod_mul by lia.
  rewrite new_location_exact.
  destruct (round_54 (xorb sx sy) 9007199254740992 (e - e - 53) loc_Exact)
    as (m' & _ & Hres & Hm); [ reflexivity | lia | ].
  change (2 ^ 53) with (Zpos 9007199254740992).
  rewrite Hres. cbn in Hm. injection Hm as ->.
  cbn. f_equal. lia.
Qed.

(** A normal float divided by 1 is itself. *)
Lemma div_one (sx : bool) (m : positive) (e : Z) :
  Zpos (digits2_pos m) = 53 -> -400 <= e <= 400 ->
  F64.div (S754_finite sx m e) (F64.of_int 1) = S754_finite sx m e.
Proof.
  intros Hd He. rewrite one_eq, div_finite by (try reflexivity; lia).
  destruct (digits2_bounds m) as [Hlo Hhi]. rewrite Hd in Hlo, Hhi.
  change (2 ^ (53 - 1)) with (2 ^ 52) in Hlo.
  change (2 ^ 53) with (2 * Zpos 4503599627370496).
  rewrite Z.mul_assoc, Z.div_mul, Z.mod_mul by lia.
  rewrite new_location_exact.
  replace (Zpos m * 2) with (Zpos m~0) by lia.
  rewrite xorb_false_r.
  destruct (round_54 sx m~0 (e - -52 - 53) loc_Exact)
    as (m' & _ & Hres & Hm); [ cbn [digits2_pos]; lia | lia | ].
  rewrite Hres.
  assert (Hhalf : Zpos m~0 / 2 = Zpos m).
  { replace (Zpos m~0) with (Zpos m * 2) by lia. apply Z.div_mul. lia. }
  rewrite Hhalf in *.
  change (Z.odd (Zpos m~0)) with false in *.
  cbn [negb loc_of_shr_record round_nearest_even] in *.
  replace (Zpos m <? 2 ^ 53) with true in * by (symmetry; apply Z.ltb_lt; lia).
  injection Hm as ->. f_equal. lia.
Qed.

(** A normal float divided by one that is not smaller: at most 1. *)
Lemma quotient_at_most_one (mx my : positive) (ex ey : Z) :
  Zpos (digits2_pos mx) = 53 -> Zpos (digits2_pos my) = 53 ->
  -200 <= ex <= 200 -> -200 <= ey <= 200 ->
  ex < ey \/ (ex = ey /\ Zpos mx <= Zpos my) ->
  exists mq eq,
    F64.div (S754_finite false mx ex) (S754_finite false my ey)
    = S754_finite false mq eq
    /\ Zpos (digits2_pos mq) = 53
    /\ ex - ey - 53 <= eq
    /\ (eq < -52 \/ (eq = -52 /\ Zpos mq = 2 ^ 52)).
Proof.
  intros Hdx Hdy Hex Hey Hle.
  rewrite div_finite by lia. cbn [xorb].
  destruct (digits2_bounds mx) as [Hlox Hhix].
  destruct (digits2_bounds my) as [Hloy Hhiy].
  rewrite Hdx in Hlox, Hhix. rewrite Hdy in Hloy, Hhiy.
  change (2 ^ (53 - 1)) with (2 ^ 52) in *.
  destruct (div_quotient_digits mx my Hdx Hdy) as (q & Hq & Hcases).
  destruct (div_mod_eq _ _ _ Hq) as [Hdiv Hr].
  rewrite Hq.
  set (r := (Zpos mx * 2 ^ 53) mod Zpos my) in *.
  set (l := new_location (Zpos my) r).
  destruct Hcases as [[Hdq Hq53] | [Hdq Hq53]].
  - destruct (round_53 false q (ex - ey - 53) l Hdq) as (m & Hdm & -> & Hm);
      [ lia | ].
    eexists m, _. split; [ reflexivity | ]. split; [ exact Hdm | ].
    destruct (Z.ltb_spec (round_nearest_even (Zpos q) l) (2 ^ 53)); lia.
  - destruct (round_54 false q (ex - ey - 53) l Hdq) as (m & Hdm & -> & Hm);
      [ lia | ].
    set (l' := loc_of_shr_record
                 {| shr_m := Zpos q / 2; shr_r := Z.odd (Zpos q);
                    shr_s := negb match l with
                                  | loc_Exact => true
                                  | loc_Inexact _ => false
                                  end |}) in *.
    eexists m, _. split; [ reflexivity | ]. split; [ exact Hdm | ].
    destruct (Z.eq_dec ex ey) as [He | He].
    + assert (Hmm : Zpos mx <= Zpos my) by lia.
      assert (Hqe : Zpos q = 2 ^ 53).
      { assert (Zpos my * Zpos q <= Zpos my * 2 ^ 53) by lia.
        assert (Zpos q <= 2 ^ 53); [ | lia ].
        apply Z.mul_le_mono_pos_l with (p := Zpos my); lia. }
      assert (Hrne : round_nearest_even (Zpos q / 2) l' = 2 ^ 52).
      { unfold l'. rewrite Hqe.
        change (Z.odd (2 ^ 53)) with false. change (2 ^ 53 / 2) with (2 ^ 52).
        destruct l as [ | c ]; reflexivity. }
      rewrite Hrne in *.
      change (2 ^ 52 <? 2 ^ 53) with true in *. cbv iota in *. lia.
    + destruct (Z.ltb_spec (round_nearest_even (Zpos q / 2) l') (2 ^ 53)); lia.
Qed.

(** Dividing a normal float by a positive one that is at most 1 does not
    make it smaller in magnitude. *)
Lemma div_by_at_most_one (sx : bool) (mx my : positive) (ex ey : Z) :
  Zpos (digits2_pos mx) = 53 -> Zpos (digits2_pos my) = 53 ->
  -200 <= ex <= 200 -> -200 <= ey <= 200 ->
  ey < -52 \/ (ey = -52 /\ Zpos my = 2 ^ 52) ->
  exists m e,
    F64.div (S754_finite sx mx ex) (S754_finite false my ey)
    = S754_finite sx m e
    /\ Zpos (digits2_pos m) = 53
    /\ (ex < e \/ (ex = e /\ Zpos mx <= Zpos m)).
Proof.
  intros Hdx Hdy Hex Hey Hone.
  rewrite div_finite by lia. rewrite xorb_false_r.
  destruct (digits2_bounds mx) as [Hlox Hhix].
  destruct (digits2_bounds my) as [Hloy Hhiy].
  rewrite Hdx in Hlox, Hhix. rewrite Hdy in Hloy, Hhiy.
  change (2 ^ (53 - 1)) with (2 ^ 52) in *.
  destruct (div_quotient_digits mx my Hdx Hdy) as (q & Hq & Hcases).
  destruct (div_mod_eq _ _ _ Hq) as [Hdiv Hr].
  rewrite Hq.
  set (r := (Zpos mx * 2 ^ 53) mod Zpos my) in *.
  set (l := new_location (Zpos my) r).
  assert (Hqx : Zpos mx <= Zpos q).
  { rewrite <- Hq. apply Z.div_le_lower_bound; [ lia | ].
    rewrite Z.mul_comm. apply Z.mul_le_mono_nonneg_l; lia. }
  destruct Hcases as [[Hdq Hq53] | [Hdq Hq53]].
  - destruct (round_53 sx q (ex - ey - 53) l Hdq) as (m & Hdm & -> & Hm);
      [ lia | ].
    pose proof (round_nearest_even_bounds (Zpos q) l) as Hrne.
    assert (Hey' : ey < -52).
    { destruct Hone as [ | [_ Hmy] ]; [ assumption | exfalso ].
      rewrite Hmy in Hdiv.
      assert (2 * Zpos mx <= Zpos q); [ | lia ].
      change (2 ^ 53) with (2 ^ 52 * 2) in Hdiv. nia. }
    eexists m, _. split; [ reflexivity | ]. split; [ exact Hdm | ].
    destruct (Z.ltb_spec (round_nearest_even (Zpos q) l) (2 ^ 53)); lia.
  - destruct (round_54 sx q (ex - ey - 53) l Hdq) as (m & Hdm & -> & Hm);
      [ lia | ].
    set (l' := loc_of_shr_record
                 {| shr_m := Zpos q / 2; shr_r := Z.odd (Zpos q);
                    shr_s := negb match l with
                                  | loc_Exact => true
                                  | loc_Inexact _ => false
                                  end |}) in *.
    pose proof (round_nearest_even_bounds (Zpos q / 2) l') as Hrne.
    eexists m, _. split; [ reflexivity | ]. split; [ exact Hdm | ].
    destruct (Z.eq_dec ey (-52)) as [He | He].
    + assert (Hmy : Zpos my = 2 ^ 52) by lia.
      assert (Hhalf : Zpos mx <= Zpos q / 2).
      { apply Z.div_le_lower_bound; [ lia | ].
        rewrite Hmy in Hdiv. change (2 ^ 53) with (2 ^ 52 * 2) in Hdiv. nia. }
      destruct (Z.ltb_spec (round_nearest_even (Zpos q / 2) l') (2 ^ 53)); lia.
    + destruct (Z.ltb_spec (round_nearest_even (Zpos q / 2) l') (2 ^ 53)); lia.
Qed.

(** ** The integer part grows with the float *)

Lemma trunc_scaled (m : positive) (e k : Z) :
  0 <= k -> 0 <= e + k ->
  match e with
  | 0 => Zpos m
  | Zpos _ => Zpos m * 2 ^ e
  | Zneg _ => Zpos m / 2 ^ (- e)
  end = Zpos m * 2 ^ (e + k) / 2 ^ k.
Proof.
  intros Hk Hek.
  assert (H2k : 0 < 2 ^ k) by (apply Z.pow_pos_nonneg; lia).
  destruct e as [ | e | e ].
  - cbn [Z.add]. symmetry. apply Z.div_mul. lia.
  - rewrite Z.pow_add_r, Z.mul_assoc by lia. symmetry. apply Z.div_mul. lia.
  - change (- Zneg e) with (Zpos e).
    replace (2 ^ k) with (2 ^ Zpos e * 2 ^ (Zneg e + k))
      by (rewrite <- Z.pow_add_r by lia; f_equal; lia).
    symmetry. apply Z.div_mul_cancel_r.
    + apply Z.pow_nonzero; lia.
    + apply Z.pow_nonzero; lia.
Qed.

Lemma trunc_mono (m1 m2 : positive) (e1 e2 : Z) :
  Zpos (digits2_pos m1) = 53 -> Zpos (digits2_pos m2) = 53 ->
  e1 < e2 \/ (e1 = e2 /\ Zpos m1 <= Zpos m2) ->
  exists z1 z2,
    F64.trunc (S754_finite false m1 e1) = Some z1
    /\ F64.trunc (S754_finite false m2 e2) = Some z2
    /\ z1 <= z2.
Proof.
  intros Hd1 Hd2 Hle. unfold F64.trunc. cbn [cond_Zopp].
  eexists _, _. split; [ reflexivity | ]. split; [ reflexivity | ].
  destruct (digits2_bounds m1) as [Hlo1 Hhi1].
  destruct (digits2_bounds m2) as [Hlo2 Hhi2].
  rewrite Hd1 in Hlo1, Hhi1. rewrite Hd2 in Hlo2, Hhi2.
  change (2 ^ (53 - 1)) with (2 ^ 52) in *.
  assert (He : e1 <= e2) by lia.
  assert (Hk : exists k, 0 <= k /\ 0 <= e1 + k)
    by (exists (Z.max 0 (- e1)); lia).
  destruct Hk as (k & Hk0 & Hk1).
  rewrite (trunc_scaled m1 e1 k), (trunc_scaled m2 e2 k) by lia.
  apply Z.div_le_mono; [ apply Z.pow_pos_nonneg; lia | ].
  assert (H1 : 0 < 2 ^ (e1 + k)) by (apply Z.pow_pos_nonneg; lia).
  destruct Hle as [Hlt | [-> Hm]].
  - replace (e2 + k) with ((e2 - e1 - 1) + 1 + (e1 + k)) by lia.
    rewrite (Z.pow_add_r 2 (e2 - e1 - 1 + 1) (e1 + k)) by lia.
    rewrite (Z.pow_add_r 2 (e2 - e1 - 1) 1) by lia. change (2 ^ 1) with 2.
    assert (H2 : 0 < 2 ^ (e2 - e1 - 1)) by (apply Z.pow_pos_nonneg; lia).
    set (a := 2 ^ (e1 + k)) in *. set (b := 2 ^ (e2 - e1 - 1)) in *.
    assert (H3 : Zpos m1 * a <= 2 ^ 53 * a)
      by (apply Z.mul_le_mono_nonneg_r; lia).
    assert (H4 : 2 ^ 52 * (b * 2 * a) <= Zpos m2 * (b * 2 * a))
      by (apply Z.mul_le_mono_nonneg_r; nia).
    assert (H5 : 1 * (2 * a) <= b * (2 * a))
      by (apply Z.mul_le_mono_nonneg_r; lia).
    lia.
  - apply Z.mul_le_mono_nonneg_r; lia.
Qed.

(** ** Percent from completion on *)

Lemma eqb_of_int_refl (c : Z) :
  Z.abs c < 2 ^ 64 -> F64.eqb (F64.of_int c) (F64.of_int c) = true.
Proof.
  intros Hc. unfold F64.eqb, SFeqb. rewrite compare_of_int by assumption.
  rewrite Z.compare_refl. reflexivity.
Qed.

Lemma eqb_of_int_nonzero (c : Z) :
  c <> 0 -> F64.eqb (F64.of_int c) F64.zero = false.
Proof.
  intros Hc. destruct (Z.lt_trichotomy c 0) as [Hneg | [H0 | Hpos]];
    [ | contradiction | ].
  - destruct (of_int_neg c Hneg) as [(m & e & ->) | ->]; reflexivity.
  - destruct (of_int_pos c Hpos) as [(m & e & ->) | ->]; reflexivity.
Qed.

(** X8: for a snapshot of [int64] readings whose count has reached a
    positive size, [Percent()] is at least 100. *)
Theorem Percent_overshoot (p : Progress) (c s : Z) :
  n p = F64.of_int c -> size p = F64.of_int s ->
  0 < s -> s <= c -> c <= max_int64 ->
  F64.leb F64.hundred (Percent p) = true.
Proof.
  intros Hn Hs Hs0 Hsc Hc. unfold Percent. rewrite Hn, Hs.
  rewrite eqb_of_int_nonzero by lia.
  destruct (F64.eqb (F64.of_int c) (F64.of_int s)); [ reflexivity | ].
  assert (Hle : F64.leb (F64.of_int s) (F64.of_int c) = true)
    by (apply of_int_mono; unfold min_int64; lia).
  destruct (of_int_normal c ltac:(lia)) as (mn & en & Hceq & Hdn & Hen).
  destruct (of_int_normal s ltac:(lia)) as (ms & es & Hseq & Hds & Hes).
  rewrite Hceq, Hseq in *.
  apply leb_finite_pos in Hle.
  destruct (quotient_at_most_one ms mn es en)
    as (mq & eq & -> & Hdq & Heq & Hone); try assumption; try lia.
  rewrite hundred_eq.
  destruct (div_by_at_most_one false 7036874417766400 mq (-46) eq)
    as (m & e & -> & _ & Hge); try assumption; try reflexivity; try lia.
  apply leb_finite_pos. exact Hge.
Qed.

Section Estimates.

Variable indefinite : float64 -> Z.

(** ** The estimate against the clock *)

(** The float of the time elapsed, divided by a ratio that is at most 1:
    its integer part is at least the time elapsed. *)
Lemma projected_not_less (d c sz : Z) :
  0 <= d <= 2 ^ 53 ->
  0 < c -> c <= sz -> sz <= max_int64 ->
  exists z,
    F64.trunc (F64.div (F64.of_int d)
                       (F64.div (F64.of_int c) (F64.of_int sz))) = Some z
    /\ d <= z.
Proof.
  intros Hd Hc Hcs Hsz.
  assert (Hle : F64.leb (F64.of_int c) (F64.of_int sz) = true)
    by (apply of_int_mono; unfold min_int64; lia).
  destruct (of_int_normal c ltac:(lia)) as (mc & ec & Hceq & Hdc & Hec).
  destruct (of_int_normal sz ltac:(lia)) as (ms & es & Hseq & Hds & Hes).
  rewrite Hceq, Hseq in *.
  apply leb_finite_pos in Hle.
  destruct (quotient_at_most_one mc ms ec es)
    as (mq & eq & -> & Hdq & Heq & Hone); try assumption; try lia.
  destruct (Z.eq_dec d 0) as [-> | Hd0].
  - exists 0. split; [ reflexivity | lia ].
  - pose proof (trunc_of_int d ltac:(lia)) as Ht.
    rewrite nearest_int_exact in Ht by lia.
    destruct (of_int_normal d ltac:(unfold max_int64; lia))
      as (md & ed & Hdeq & Hdd & Hed).
    rewrite Hdeq in *.
    destruct (div_by_at_most_one false md mq ed eq)
      as (m & e & -> & Hdm & Hge); try assumption; try lia.
    destruct (trunc_mono md m ed e Hdd Hdm Hge) as (z1 & z2 & H1 & H2 & Hz).
    exists z2. split; [ exact H2 | ].
    rewrite Ht in H1. injection H1 as <-. exact Hz.
Qed.

(** X9: once [started] is set at [tj], a snapshot taken at most [2 ^ 53]
    nanoseconds later from a positive count that has not passed the size has
    a projected duration of at least the time elapsed; when that duration is
    an [int64], the estimated completion is not before the time of the
    sample. *)
Theorem estimate_not_before_now (sz : Z) (evs : list event) (i j : nat)
        (tj c now : Z) (p : Progress) :
  nth_error (fst (NewTicker indefinite sz evs)) i = Some p ->
  first_activity evs j tj ->
  (j < i)%nat ->
  tj <> Time.zero ->
  nth_error evs i = Some (TimerFired c now) ->
  0 < c -> c <= sz -> sz <= max_int64 ->
  0 <= now - tj <= 2 ^ 53 ->
  exists z,
    F64.trunc (F64.div (F64.of_int (Time.Sub now tj)) (ratio p)) = Some z
    /\ now - tj <= z
    /\ (in_int64 z = true ->
        estimated p = Time.Add tj z /\ now <= estimated p).
Proof.
  intros Hp Hfirst Hji Htj Hev Hc Hcs Hsz Hel. unfold NewTicker in Hp.
  pose proof (loop_nth_ticks _ _ _ _ _ _ Hp) as Hticks.
  apply loop_nth in Hp. destruct Hp as (c' & now' & Hev' & Hpeq).
  rewrite Hev in Hev'. injection Hev' as <- <-.
  rewrite (started_before_anchor indefinite sz evs i j tj Hfirst) in Hpeq;
    try assumption; [ | intros k Hk; apply Hticks; lia ].
  assert (Hsub : Time.Sub now tj = now - tj).
  { unfold Time.Sub, min_int64, max_int64.
    destruct (Z.ltb_spec (now - tj) (- 2 ^ 63)); [ lia | ].
    destruct (Z.ltb_spec (2 ^ 63 - 1) (now - tj)); lia. }
  assert (Hratio : ratio p = F64.div (F64.of_int c) (F64.of_int sz))
    by (unfold ratio; rewrite Hpeq, sample_n, sample_size; reflexivity).
  rewrite Hsub, Hratio.
  destruct (projected_not_less (now - tj) c sz Hel Hc Hcs Hsz)
    as (z & Hz & Hdz).
  exists z. split; [ exact Hz | ]. split; [ exact Hdz | ].
  intros Hin.
  assert (Hest : estimated p = Time.Add tj z).
  { rewrite Hpeq, sample_set by exact Htj.
    unfold to_int64. rewrite Hsub, Hz, Hin. reflexivity. }
  split; [ exact Hest | ]. rewrite Hest. unfold Time.Add. lia.
Qed.

(** X10: a snapshot taken from a reading equal to a size that is not 0 is
    complete and at 100 percent, for every [int64]; if [started] was set at
    [tj], at most [2 ^ 53] nanoseconds before, its estimated completion is
    the time of the sample. *)
Theorem exact_completion (sz : Z) (evs : list event) (i : nat) (now : Z)
        (p : Progress) :
  nth_error (fst (NewTicker indefinite sz evs)) i = Some p ->
  nth_error evs i = Some (TimerFired sz now) ->
  sz <> 0 -> in_int64 sz = true ->
  Complete p = true
  /\ Percent p = F64.hundred
  /\ (forall j tj,
         first_activity evs j tj -> (j < i)%nat -> tj <> Time.zero ->
         Z.abs (now - tj) <= 2 ^ 53 ->
         estimated p = now /\ Remaining p now = 0).
Proof.
  intros Hp Hev Hsz Hin. unfold NewTicker in Hp.
  assert (Hrange : Z.abs sz < 2 ^ 64).
  { unfold in_int64, min_int64, max_int64 in Hin.
    apply andb_prop in Hin. destruct Hin as [H1 H2].
    apply Z.leb_le in H1, H2. lia. }
  pose proof (loop_nth_ticks _ _ _ _ _ _ Hp) as Hticks.
  apply loop_nth in Hp. destruct Hp as (c' & now' & Hev' & Hpeq).
  rewrite Hev in Hev'. injection Hev' as <- <-.
  assert (Hn : n p = F64.of_int sz) by (rewrite Hpeq; apply sample_n).
  assert (Hs : size p = F64.of_int sz) by (rewrite Hpeq; apply sample_size).
  split; [ | split ].
  - unfold Complete. rewrite Hn, Hs.
    unfold F64.leb, SFleb. rewrite compare_of_int by assumption.
    rewrite Z.compare_refl. reflexivity.
  - unfold Percent. rewrite Hn, Hs.
    rewrite eqb_of_int_nonzero, eqb_of_int_refl by assumption. reflexivity.
  - intros j tj Hfirst Hji Htj Hel.
    rewrite (started_before_anchor indefinite sz evs i j tj Hfirst) in Hpeq;
      try assumption; [ | intros k Hk; apply Hticks; lia ].
    assert (Hsub : Time.Sub now tj = now - tj).
    { unfold Time.Sub, min_int64, max_int64.
      destruct (Z.ltb_spec (now - tj) (- 2 ^ 63)); [ lia | ].
      destruct (Z.ltb_spec (2 ^ 63 - 1) (now - tj)); lia. }
    assert (Hone : F64.div (F64.of_int sz) (F64.of_int sz) = F64.of_int 1).
    { rewrite one_eq. unfold F64.of_int, binary_normalize.
      destruct sz as [ | q | q ]; [ contradiction | | ].
      - destruct (binary_round_value false q ltac:(lia))
          as (m & e & -> & Hd & He & _).
        apply (div_self false false); [ exact Hd | lia ].
      - destruct (binary_round_value true q ltac:(lia))
          as (m & e & -> & Hd & He & _).
        apply (div_self true true); [ exact Hd | lia ]. }
    assert (Hquot : F64.div (F64.of_int (now - tj)) (F64.of_int 1)
                    = F64.of_int (now - tj)).
    { unfold F64.of_int at 1 3, binary_normalize.
      destruct (now - tj) as [ | q | q ] eqn:Hq; [ reflexivity | | ].
      - destruct (binary_round_value false q ltac:(lia))
          as (m & e & -> & Hd & He & _).
        apply div_one; [ exact Hd | lia ].
      - destruct (binary_round_value true q ltac:(lia))
          as (m & e & -> & Hd & He & _).
        apply div_one; [ exact Hd | lia ]. }
    assert (Hest : estimated p = now).
    { rewrite Hpeq, sample_set by exact Htj.
      rewrite Hsub, Hone, Hquot, to_int64_of_int by exact Hel.
      unfold Time.Add. lia. }
    split; [ exact Hest | ].
    unfold Remaining, Time.Sub, min_int64, max_int64. rewrite Hest.
    rewrite Z.sub_diag. reflexivity.
Qed.

End Estimates.

(** * Runs on concrete inputs *)

Ltac nth_cases i :=
  destruct i as [ | [ | [ | [ | i ] ] ] ];
  cbn [nth_error trace_start trace_done] in *;
  try discriminate; try lia.

Lemma trace_start_monotone : monotone trace_start.
Proof.
  intros i j ci ti cj tj Hij Hi Hj.
  nth_cases i; nth_cases j;
    injection Hi as <- <-; injection Hj as <- <-; lia.
Defined.

Lemma trace_start_first : first_activity trace_start 1 2000.
Proof.
  split.
  - exists 10. split; [ reflexivity | lia ].
  - intros k c t Hk Hev. nth_cases k. injection Hev as <- <-. lia.
Defined.

Lemma trace_start_int64 (c : Z) (t : Time.Time) :
  In (TimerFired c t) trace_start -> min_int64 <= c <= max_int64.
Proof.
  unfold min_int64, max_int64.
  intros [H | [H | [H | []]]]; injection H as <- <-; lia.
Defined.

Lemma estimate_extrapolates_witness :
  estimated third_snapshot = Time.Add 2000 5000.
Proof.
  destruct (estimate_extrapolates amd64 100 trace_start
              (fst (NewTicker amd64 100 trace_start))
              (snd (NewTicker amd64 100 trace_start)) 2 1 2000
              third_snapshot)
    as (c & now & Hev & Hin & _).
  - reflexivity.
  - reflexivity.
  - exact trace_start_first.
  - lia.
  - discriminate.
  - injection Hev as <- <-. apply Hin; reflexivity.
Defined.

Lemma Percent_cases_witness :
  Percent {| n := F64.of_int 50; size := F64.of_int 100;
             estimated := Time.zero |}
  = F64.div F64.hundred (F64.div (F64.of_int 100) (F64.of_int 50))
  /\ F64.ltb F64.zero
       (Percent {| n := F64.of_int 50; size := F64.of_int 100;
                   estimated := Time.zero |}) = true
  /\ F64.ltb
       (Percent {| n := F64.of_int 50; size := F64.of_int 100;
                   estimated := Time.zero |}) F64.hundred = true.
Proof.
  apply (Percent_cases {| n := F64.of_int 50; size := F64.of_int 100;
                          estimated := Time.zero |}) with (c := 50) (s := 100).
  - reflexivity.
  - reflexivity.
  - unfold max_int64. lia.
  - unfold max_int64. lia.
  - reflexivity.
Defined.

Lemma complete_closes_channel_witness :
  snd (NewTicker amd64 100 trace_done) = Some Completed
  /\ (0 < length (fst (NewTicker amd64 100 trace_done)) <= 2)%nat
  /\ (exists pre p,
         fst (NewTicker amd64 100 trace_done) = pre ++ [p]
         /\ Complete p = true)
  /\ ((forall k ck tk,
          (k < 1)%nat -> nth_error trace_done k = Some (TimerFired ck tk) ->
          Z.abs ck <= 2 ^ 53 /\ ck < 100) ->
      Z.abs 100 <= 2 ^ 53 ->
      length (fst (NewTicker amd64 100 trace_done)) = 2%nat).
Proof.
  apply (complete_closes_channel amd64 100 trace_done
           (fst (NewTicker amd64 100 trace_done))
           (snd (NewTicker amd64 100 trace_done)) eq_refl)
    with (i := 1%nat) (c := 100) (t := 2000).
  - intros k Hk. exists 50, 1000.
    destruct k as [ | k ]; [ reflexivity | lia ].
  - reflexivity.
  - unfold min_int64. lia.
  - lia.
  - unfold max_int64. lia.
Defined.

Lemma count_exact_witness :
  (forall i p,
      nth_error (fst (NewTicker amd64 100 trace_start)) i = Some p ->
      exists c t,
        nth_error trace_start i = Some (TimerFired c t)
        /\ n p = F64.of_int c
        /\ (Z.abs c <= 2 ^ 53 -> N amd64 p = c)
        /\ (in_int64 (nearest_int c) = true -> N amd64 p = nearest_int c))
  /\ (monotone trace_start ->
      forall i j p q,
        (i <= j)%nat ->
        nth_error (fst (NewTicker amd64 100 trace_start)) i = Some p ->
        nth_error (fst (NewTicker amd64 100 trace_start)) j = Some q ->
        F64.leb (n p) (n q) = true
        /\ ((forall c t, In (TimerFired c t) trace_start -> Z.abs c <= 2 ^ 53)
            -> N amd64 p <= N amd64 q)).
Proof.
  apply (count_exact amd64 100 trace_start
           (fst (NewTicker amd64 100 trace_start))
           (snd (NewTicker amd64 100 trace_start))).
  - reflexivity.
  - exact trace_start_int64.
Defined.

Lemma estimate_only_after_activity_witness :
  (estimated third_snapshot <> Time.zero ->
   exists j c t,
     (j < 2)%nat /\ nth_error trace_start j = Some (TimerFired c t) /\ 0 < c)
  /\ (forall t, first_activity trace_start 2 t ->
      estimated third_snapshot = Time.zero).
Proof.
  apply (estimate_only_after_activity amd64 100 trace_start
           (fst (NewTicker amd64 100 trace_start))
           (snd (NewTicker amd64 100 trace_start)) 2).
  - reflexivity.
  - reflexivity.
Defined.

Lemma zero_size_no_estimate_witness :
  estimated {| n := F64.of_int 5; size := F64.zero; estimated := Time.zero |}
  = Time.zero
  /\ (Started {| n := F64.of_int 5; size := F64.zero;
                 estimated := Time.zero |} = true ->
      Percent {| n := F64.of_int 5; size := F64.zero;
                 estimated := Time.zero |} = S754_infinity false).
Proof.
  apply (zero_size_no_estimate amd64 [TimerFired 5 1000; TimerFired 6 2000]).
  left. reflexivity.
Defined.

Lemma cancel_closes_channel_witness :
  NewTicker amd64 100 (trace_start ++ CtxDone :: trace_done)
  = (fst (NewTicker amd64 100 trace_start), Some Cancelled)
  /\ length (fst (NewTicker amd64 100 (trace_start ++ CtxDone :: trace_done)))
     = length trace_start.
Proof.
  apply (cancel_closes_channel amd64 100 trace_start trace_done).
  reflexivity.
Defined.

Lemma size_fixed_witness :
  size {| n := F64.of_int 50; size := F64.of_int 100; estimated := Time.zero |}
  = F64.of_int 100
  /\ (Z.abs 100 <= 2 ^ 53 ->
      Size amd64 {| n := F64.of_int 50; size := F64.of_int 100;
                    estimated := Time.zero |} = 100)
  /\ (in_int64 100 = true -> in_int64 (nearest_int 100) = true ->
      Size amd64 {| n := F64.of_int 50; size := F64.of_int 100;
                    estimated := Time.zero |} = nearest_int 100).
Proof.
  apply (size_fixed amd64 100 trace_done).
  left. reflexivity.
Defined.

Lemma ratio_nonzero_witness :
  (exists c t, nth_error trace_start 2 = Some (TimerFired c t) /\ 0 < c)
  /\ Started third_snapshot = true
  /\ exists m e, ratio third_snapshot = S754_finite false m e.
Proof.
  apply (ratio_nonzero amd64 100 trace_start
           (fst (NewTicker amd64 100 trace_start))
           (snd (NewTicker amd64 100 trace_start)) 2).
  - unfold max_int64. lia.
  - exact trace_start_monotone.
  - exact trace_start_int64.
  - reflexivity.
  - reflexivity.
  - discriminate.
Defined.

Lemma zero_of_zero_witness :
  (Complete {| n := F64.zero; size := F64.zero; estimated := Time.zero |}
   = true
   /\ Started {| n := F64.zero; size := F64.zero; estimated := Time.zero |}
      = false
   /\ Percent {| n := F64.zero; size := F64.zero; estimated := Time.zero |}
      = F64.zero)
  /\ forall t evs,
      NewTicker amd64 0 (TimerFired 0 t :: evs)
      = ([ {| n := F64.zero; size := F64.zero; estimated := Time.zero |} ],
         Some Completed).
Proof.
  apply (zero_of_zero amd64
           {| n := F64.zero; size := F64.zero; estimated := Time.zero |});
    reflexivity.
Defined.

Lemma trace_reset_first : first_activity trace_reset 0 1000.
Proof.
  split.
  - exists 10. split; [ reflexivity | lia ].
  - intros k c t Hk Hev. lia.
Defined.

Lemma reaching_size_completes_witness :
  snd (NewTicker amd64 100 trace_done) = Some Completed
  /\ (length (fst (NewTicker amd64 100 trace_done)) <= 2)%nat
  /\ ((forall k ck tk,
          (k < 1)%nat -> nth_error trace_done k = Some (TimerFired ck tk) ->
          Z.abs ck <= 2 ^ 53 /\ ck < 100) ->
      Z.abs 100 <= 2 ^ 53 ->
      length (fst (NewTicker amd64 100 trace_done)) = 2%nat).
Proof.
  apply (reaching_size_completes amd64 100 trace_done 1 100 2000).
  - intros k Hk. exists 50, 1000.
    destruct k as [ | k ]; [ reflexivity | lia ].
  - reflexivity.
  - unfold min_int64. lia.
  - lia.
  - unfold max_int64. lia.
Defined.

Lemma Started_reading_witness :
  exists c t,
    nth_error trace_start 2 = Some (TimerFired c t)
    /\ Started third_snapshot = (0 <? c).
Proof.
  apply (Started_reading amd64 100 trace_start 2 third_snapshot).
  reflexivity.
Defined.

Lemma Complete_Started_witness :
  Started {| n := F64.of_int 100; size := F64.of_int 100;
             estimated := Time.zero |} = true.
Proof.
  apply (Complete_Started {| n := F64.of_int 100; size := F64.of_int 100;
                              estimated := Time.zero |}); reflexivity.
Defined.


Lemma estimate_zero_count_witness :
  let p := {| n := F64.zero; size := F64.of_int 100;
              estimated := 1000 + min_int64 |} in
  let q := F64.div (F64.of_int (Time.Sub 2000 1000)) (ratio p) in
  F64.eqb (ratio p) F64.zero = true
  /\ F64.trunc q = None
  /\ estimated p = Time.Add 1000 (amd64 q).
Proof.
  apply (estimate_zero_count amd64 100 trace_reset 1 0 1000 2000).
  - reflexivity.
  - exact trace_reset_first.
  - lia.
  - discriminate.
  - reflexivity.
  - discriminate.
Defined.

Lemma Percent_overshoot_witness :
  F64.leb F64.hundred
    (Percent {| n := F64.of_int 150; size := F64.of_int 100;
                estimated := Time.zero |}) = true.
Proof.
  apply (Percent_overshoot _ 150 100).
  - reflexivity.
  - reflexivity.
  - lia.
  - lia.
  - unfold max_int64. lia.
Defined.

Lemma estimate_not_before_now_witness :
  exists z,
    F64.trunc (F64.div (F64.of_int (Time.Sub 3000 2000))
                       (ratio third_snapshot)) = Some z
    /\ 3000 - 2000 <= z
    /\ (in_int64 z = true ->
        estimated third_snapshot = Time.Add 2000 z
        /\ 3000 <= estimated third_snapshot).
Proof.
  apply (estimate_not_before_now amd64 100 trace_start 2 1 2000 20 3000).
  - reflexivity.
  - exact trace_start_first.
  - lia.
  - discriminate.
  - reflexivity.
  - lia.
  - lia.
  - unfold max_int64. lia.
  - lia.
Defined.

Lemma exact_completion_witness :
  let p := {| n := F64.of_int 100; size := F64.of_int 100;
              estimated := 2000 |} in
  Complete p = true
  /\ Percent p = F64.hundred
  /\ (forall j tj,
         first_activity trace_done j tj -> (j < 1)%nat -> tj <> Time.zero ->
         Z.abs (2000 - tj) <= 2 ^ 53 ->
         estimated p = 2000 /\ Remaining p 2000 = 0).
Proof.
  apply (exact_completion amd64 100 trace_done 1 2000).
  - reflexivity.
  - reflexivity.
  - discriminate.
  - reflexivity.
Defined.

(** * Counterexamples *)

(** C1: a size of [10 ^ 10] and a counter that reads 1, and 1 again one
    second later: the quotient [(now - tj) / (count / size)] is about
    [10 ^ 19], more than an [int64] holds, and on amd64 the estimated
    completion is [tj - 2 ^ 63], long before [tj]. *)
Lemma estimate_extrapolates_counterexample :
  ~ (forall (indefinite : float64 -> Z) (sz : Z) (evs : list event)
            (i j : nat) (tj : Time.Time) (p : Progress),
        nth_error (fst (NewTicker indefinite sz evs)) i = Some p ->
        first_activity evs j tj ->
        (j < i)%nat ->
        tj <> Time.zero ->
        exists c now z,
          nth_error evs i = Some (TimerFired c now)
          /\ F64.trunc (F64.div (F64.of_int (Time.Sub now tj))
                                (F64.div (F64.of_int c) (F64.of_int sz)))
             = Some z
          /\ estimated p = Time.Add tj z).
Proof.
  intros H.
  destruct (H amd64 (10 ^ 10) trace_slow 1%nat 0%nat 1000000000
              {| n := F64.of_int 1; size := F64.of_int (10 ^ 10);
                 estimated := 1000000000 + min_int64 |})
    as (c & now & z & Hev & Hz & Hest).
  - reflexivity.
  - split.
    + exists 1. split; [ reflexivity | lia ].
    + intros k c t Hk Hev. lia.
  - lia.
  - discriminate.
  - injection Hev as <- <-.
    vm_compute in Hz. injection Hz as <-.
    vm_compute in Hest. discriminate.
Qed.

(** C2: a count of 150 against a size of 100, the last snapshot of a run
    whose counter overshoots: the count is neither zero nor the size, yet
    [Percent()] is 150, not below 100. *)
Lemma Percent_counterexample :
  ~ (forall (indefinite : float64 -> Z) (sz : Z) (evs : list event)
            (p : Progress),
        In p (fst (NewTicker indefinite sz evs)) ->
        F64.eqb (n p) F64.zero = false ->
        F64.eqb (n p) (size p) = false ->
        F64.ltb F64.zero (Percent p) = true
        /\ F64.ltb (Percent p) F64.hundred = true).
Proof.
  intros H.
  destruct (H amd64 100 [TimerFired 150 1000]
              {| n := F64.of_int 150; size := F64.of_int 100;
                 estimated := Time.zero |}
              (or_introl eq_refl) eq_refl eq_refl) as [_ Hlt].
  vm_compute in Hlt. discriminate.
Qed.

(** The quotient [100 / (size / count)] is rounded twice: for 5 of 6 it is
    not the [float64] quotient [500 / 6]. *)
Example Percent_5_of_6 :
  Percent {| n := F64.of_int 5; size := F64.of_int 6; estimated := Time.zero |}
  <> F64.div (F64.of_int (100 * 5)) (F64.of_int 6).
Proof. vm_compute. discriminate. Qed.

(** C4: a reading of [2 ^ 53 + 1] comes back from [N()] as [2 ^ 53]. *)
Lemma count_exact_counterexample :
  ~ (forall (indefinite : float64 -> Z) (sz : Z) (evs : list event)
            (i : nat) (p : Progress) (c : Z) (t : Time.Time),
        in_int64 c = true ->
        nth_error (fst (NewTicker indefinite sz evs)) i = Some p ->
        nth_error evs i = Some (TimerFired c t) ->
        N indefinite p = c).
Proof.
  intros H.
  specialize (H amd64 (2 ^ 60) [TimerFired (2 ^ 53 + 1) 1000] 0%nat
                {| n := F64.of_int (2 ^ 53 + 1); size := F64.of_int (2 ^ 60);
                   estimated := Time.zero |}
                (2 ^ 53 + 1) 1000 eq_refl eq_refl eq_refl).
  vm_compute in H. discriminate.
Qed.

(** C6: a run with size 0 on a moving counter sends one snapshot and
    returns: the count is positive and [count / size] would be an infinity,
    but no ratio was computed and the estimated completion is unset. *)
Lemma zero_size_counterexample :
  let p := {| n := F64.of_int 5; size := F64.zero; estimated := Time.zero |} in
  NewTicker amd64 0 [TimerFired 5 1000; TimerFired 6 2000; TimerFired 7 3000]
  = ([p], Some Completed)
  /\ ratio p = S754_infinity false
  /\ Time.IsZero (Estimated p) = true.
Proof. repeat split. Qed.

(** C8: a size of [2 ^ 53 + 1] comes back from [Size()] as [2 ^ 53]. *)
Lemma size_fixed_counterexample :
  ~ (forall (indefinite : float64 -> Z) (sz : Z) (evs : list event)
            (p : Progress),
        in_int64 sz = true ->
        In p (fst (NewTicker indefinite sz evs)) ->
        Size indefinite p = sz).
Proof.
  intros H.
  specialize (H amd64 (2 ^ 53 + 1) [TimerFired 0 1000]
                {| n := F64.zero; size := F64.of_int (2 ^ 53 + 1);
                   estimated := Time.zero |}
                eq_refl (or_introl eq_refl)).
  vm_compute in H. discriminate.
Qed.
